(** * Validators::ManagerImp: the scheduling shell of the validator-list engine

    A shallow embedding of [src/ripple/validators/impl/Manager.cpp].

    [ManagerImp] owns a journal, a store, the [Logic] object, one deadline
    timer, a service queue and the flag [m_checkSources].  Producers call its
    public member functions from arbitrary threads; its own thread executes
    [run].  Member functions are embedded as computations in a small state
    monad over the object's fields which also records, in program order, the
    calls made on the collaborating objects.

    [Logic] and the store are not part of the source at hand.  The manager is
    embedded over an interface of their member functions, and its properties
    hold for every implementation of it; the engine behind the interface is
    modelled from the specification in [LogicModel]. *)

From Stdlib Require Import NArith Lia.
From stdpp Require Import base option list gmap sets strings pretty.

Local Open Scope string_scope.
Local Open Scope list_scope.

(** ** Collaborator types used by the manager *)

Module Json.

(** The fragment of [Json::Value] the manager builds: a default-constructed
    value is null, and [value [key] = text] turns it into an object. *)
#[local] Unset Elimination Schemes.
Inductive Value : Type :=
| nullValue
| stringValue (text : string)
| objectValue (members : list (string * Value)).

Fixpoint assign (key : string) (v : Value) (members : list (string * Value))
  : list (string * Value) :=
  match members with
  | [] => [(key, v)]
  | (k, old) :: rest =>
      if String.eqb k key then (k, v) :: rest else (k, old) :: assign key v rest
  end.

(** [value [key] = v] *)
Definition set_member (value : Value) (key : string) (v : Value) : Value :=
  match value with
  | objectValue members => objectValue (assign key v members)
  | _ => objectValue [(key, v)]
  end.

#[local] Set Elimination Schemes.

End Json.

(** Severities of [Journal] streams; the sink is the list of lines written. *)
Inductive Severity : Type := kTrace | kDebug | kInfo | kWarning | kError | kFatal.

Definition Journal : Type := list (Severity * string).

Definition File : Type := string.
Definition URL : Type := string.

(** [File::getChildFile] *)
Definition getChildFile (dir : File) (name : string) : File := dir +:+ "/" +:+ name.

(** The three [Source] factories the manager calls. *)
Inductive Source : Type :=
| SourceStrings_New (name : string) (stringArray : list string)
| SourceFile_New (file : File)
| SourceURL_New (url : URL).

(** A deadline timer is identified by the object it is: the manager owns
    [m_checkTimer] and may be notified about it or about some other timer.
    The state of a timer is its pending expiration, if any. *)
Inductive TimerRef : Type := the_checkTimer | other_timer (n : nat).

Definition TimerRef_eqb (a b : TimerRef) : bool :=
  match a, b with
  | the_checkTimer, the_checkTimer => true
  | other_timer n, other_timer m => Nat.eqb n m
  | _, _ => false
  end.

Record DeadlineTimer : Type := mkDeadlineTimer {
  timer_ref : TimerRef;
  expiration : option N
}.

(** A member function of an object with state [S] returning an [A]. *)
Definition Call (S A : Type) : Type := S -> A * S.

(** ** What the manager needs from code outside this file

    [StoreSqdb], [Logic], the validation and ledger-hash types, the constant
    [checkEverySeconds] and the macro [RIPPLE_USE_NEW_VALIDATORS] are declared
    elsewhere in the repository.  [Logic] is constructed over references to
    [m_store] and [m_journal], and the store over [m_journal]: a member
    function of [Logic] may read and write all three objects, and one of
    [StoreSqdb] the journal and the store.  Neither holds a reference to
    the manager. *)
Class Collaborators (StoreSqdb Logic ReceivedValidation RippleLedgerHash : Type) : Type := {
  StoreSqdb_ctor : StoreSqdb;
  Logic_ctor : Logic;

  (* Error StoreSqdb::open (File); true is the error's boolean value *)
  StoreSqdb_open : File -> Call (Journal * StoreSqdb) bool;

  Logic_load : Call (Journal * StoreSqdb * Logic) unit;
  Logic_fetch_one : Call (Journal * StoreSqdb * Logic) N;
  Logic_buildChosen : Call (Journal * StoreSqdb * Logic) unit;
  Logic_add : Source -> Call (Journal * StoreSqdb * Logic) unit;
  Logic_addStatic : Source -> Call (Journal * StoreSqdb * Logic) unit;
  Logic_receiveValidation : ReceivedValidation -> Call (Journal * StoreSqdb * Logic) unit;
  Logic_ledgerClosed : RippleLedgerHash -> Call (Journal * StoreSqdb * Logic) unit;
  Logic_rpcPrint : Json.Value -> Call (Journal * StoreSqdb * Logic) Json.Value;
  Logic_rpcSources : Json.Value -> Call (Journal * StoreSqdb * Logic) Json.Value;

  checkEverySeconds : N;
  RIPPLE_USE_NEW_VALIDATORS : bool;
  (* File::getSpecialLocation (File::userDocumentsDirectory) *)
  userDocumentsDirectory : File;
  (* how a RelativeTime prints on a journal stream *)
  RelativeTime_seconds : N -> string
}.

Section Manager.

Context {StoreSqdb Logic ReceivedValidation RippleLedgerHash : Type}.
Context `{C : Collaborators StoreSqdb Logic ReceivedValidation RippleLedgerHash}.

(** The handlers the manager hands to [m_queue.dispatch]: each is a [bind]
    of a member function to its object and arguments. *)
Inductive Handler : Type :=
| bind_Thread_signalThreadShouldExit
| bind_Logic_buildChosen
| bind_Logic_add (source : Source)
| bind_Logic_addStatic (source : Source)
| bind_Logic_receiveValidation (rv : ReceivedValidation)
| bind_Logic_ledgerClosed (ledgerHash : RippleLedgerHash)
| bind_ManagerImp_setCheckSources.

Inductive RPCHandler : Type :=
| bind_ManagerImp_rpcPrint
| bind_ManagerImp_rpcRebuild
| bind_ManagerImp_rpcSources.

(** The object: the data members of [ManagerImp], the part of its [Thread]
    and [Stoppable] bases it reads, and the RPC handler table of its
    [Manager] base. *)
Record ManagerImp : Type := mkManagerImp {
  m_journal : Journal;
  m_store : StoreSqdb;
  m_logic : Logic;
  m_checkTimer : DeadlineTimer;
  m_queue : list Handler;
  m_checkSources : bool;
  thread_running : bool;
  thread_shouldExit : bool;
  stoppable_stopping : bool;
  stoppable_stopped : bool;
  rpc_handlers : list (string * RPCHandler)
}.

(** Calls on collaborators, as the member functions make them. *)
Inductive Event : Type :=
| ev_store_open (file : File) (error : bool)
| ev_Logic_load
| ev_Logic_fetch_one (remaining : N)
| ev_Logic_rpcPrint (args : Json.Value)
| ev_Logic_rpcSources (args : Json.Value)
| ev_dispatch (h : Handler)
| ev_run_handler (h : Handler)
| ev_setExpiration (secondsUntilDeadline : N)
| ev_stopped.

(** *** The monad of member functions *)

Definition M (A : Type) : Type := ManagerImp -> A * ManagerImp * list Event.

Definition ret {A} (a : A) : M A := fun s => (a, s, []).

Definition bind {A B} (m : M A) (k : A -> M B) : M B :=
  fun s =>
    let '(a, s1, e1) := m s in
    let '(b, s2, e2) := k a s1 in
    (b, s2, e1 ++ e2).

#[global] Instance M_ret : MRet M := @ret.
#[global] Instance M_bind : MBind M := fun A B k m => bind m k.

Definition when (b : bool) (m : M unit) : M unit := if b then m else mret tt.

Definition result_of {A} (r : A * ManagerImp * list Event) : A := fst (fst r).
Definition state_of {A} (r : A * ManagerImp * list Event) : ManagerImp := snd (fst r).
Definition events_of {A} (r : A * ManagerImp * list Event) : list Event := snd r.

(** *** Field updates *)

Definition set_shared (o : Journal * StoreSqdb * Logic) (s : ManagerImp) : ManagerImp :=
  mkManagerImp (fst (fst o)) (snd (fst o)) (snd o) (m_checkTimer s) (m_queue s)
    (m_checkSources s) (thread_running s) (thread_shouldExit s)
    (stoppable_stopping s) (stoppable_stopped s) (rpc_handlers s).

Definition set_checkTimer (t : DeadlineTimer) (s : ManagerImp) : ManagerImp :=
  mkManagerImp (m_journal s) (m_store s) (m_logic s) t (m_queue s)
    (m_checkSources s) (thread_running s) (thread_shouldExit s)
    (stoppable_stopping s) (stoppable_stopped s) (rpc_handlers s).

Definition set_queue (q : list Handler) (s : ManagerImp) : ManagerImp :=
  mkManagerImp (m_journal s) (m_store s) (m_logic s) (m_checkTimer s) q
    (m_checkSources s) (thread_running s) (thread_shouldExit s)
    (stoppable_stopping s) (stoppable_stopped s) (rpc_handlers s).

Definition set_checkSources (b : bool) (s : ManagerImp) : ManagerImp :=
  mkManagerImp (m_journal s) (m_store s) (m_logic s) (m_checkTimer s) (m_queue s)
    b (thread_running s) (thread_shouldExit s)
    (stoppable_stopping s) (stoppable_stopped s) (rpc_handlers s).

Definition set_thread_running (b : bool) (s : ManagerImp) : ManagerImp :=
  mkManagerImp (m_journal s) (m_store s) (m_logic s) (m_checkTimer s) (m_queue s)
    (m_checkSources s) b (thread_shouldExit s)
    (stoppable_stopping s) (stoppable_stopped s) (rpc_handlers s).

Definition set_thread_shouldExit (b : bool) (s : ManagerImp) : ManagerImp :=
  mkManagerImp (m_journal s) (m_store s) (m_logic s) (m_checkTimer s) (m_queue s)
    (m_checkSources s) (thread_running s) b
    (stoppable_stopping s) (stoppable_stopped s) (rpc_handlers s).

Definition set_stopping (b : bool) (s : ManagerImp) : ManagerImp :=
  mkManagerImp (m_journal s) (m_store s) (m_logic s) (m_checkTimer s) (m_queue s)
    (m_checkSources s) (thread_running s) (thread_shouldExit s)
    b (stoppable_stopped s) (rpc_handlers s).

Definition set_stopped (b : bool) (s : ManagerImp) : ManagerImp :=
  mkManagerImp (m_journal s) (m_store s) (m_logic s) (m_checkTimer s) (m_queue s)
    (m_checkSources s) (thread_running s) (thread_shouldExit s)
    (stoppable_stopping s) b (rpc_handlers s).

Definition set_rpc_handlers (h : list (string * RPCHandler)) (s : ManagerImp) : ManagerImp :=
  mkManagerImp (m_journal s) (m_store s) (m_logic s) (m_checkTimer s) (m_queue s)
    (m_checkSources s) (thread_running s) (thread_shouldExit s)
    (stoppable_stopping s) (stoppable_stopped s) h.

(** *** Primitive actions on the members *)

(** [m_journal.<severity> << text] *)
Definition journal_write (sev : Severity) (text : string) : M unit :=
  fun s => (tt, set_shared (m_journal s ++ [(sev, text)], m_store s, m_logic s) s, []).

(** A call of a member function of [m_store]. *)
Definition on_store {A} (f : Call (Journal * StoreSqdb) A) (ev : A -> Event) : M A :=
  fun s =>
    let '(a, (j, st)) := f (m_journal s, m_store s) in
    (a, set_shared (j, st, m_logic s) s, [ev a]).

(** A call of a member function of [m_logic], made by the running thread. *)
Definition on_logic {A} (f : Call (Journal * StoreSqdb * Logic) A) (ev : A -> list Event)
  : M A :=
  fun s =>
    let '(a, o) := f (m_journal s, m_store s, m_logic s) in
    (a, set_shared o s, ev a).

(** [m_queue.dispatch (h)], called as everywhere in this file from a thread
    that is not running the queue: the handler joins the back of the
    queue. *)
Definition dispatch (h : Handler) : M unit :=
  fun s => (tt, set_queue (m_queue s ++ [h]) s, [ev_dispatch h]).

(** [m_checkTimer.setExpiration (secondsUntilDeadline)] *)
Definition setExpiration (secondsUntilDeadline : N) : M unit :=
  fun s =>
    (tt,
     set_checkTimer (mkDeadlineTimer (timer_ref (m_checkTimer s)) (Some secondsUntilDeadline)) s,
     [ev_setExpiration secondsUntilDeadline]).

(** Reading and writing [m_checkSources]; [timer == m_checkTimer]. *)
Definition get_checkSources : M bool := fun s => (m_checkSources s, s, []).
Definition put_checkSources (b : bool) : M unit := fun s => (tt, set_checkSources b s, []).
Definition is_checkTimer (timer : TimerRef) : M bool :=
  fun s => (TimerRef_eqb timer (timer_ref (m_checkTimer s)), s, []).

Definition isThreadRunning : M bool := fun s => (thread_running s, s, []).
Definition threadShouldExit : M bool := fun s => (thread_shouldExit s, s, []).
Definition signalThreadShouldExit : M unit :=
  fun s => (tt, set_thread_shouldExit true s, []).
Definition startThread : M unit := fun s => (tt, set_thread_running true s, []).
Definition isStopping : M bool := fun s => (stoppable_stopping s, s, []).
Definition stopped : M unit := fun s => (tt, set_stopped true s, [ev_stopped]).

Definition addRPCHandler (name : string) (h : RPCHandler) : M unit :=
  fun s => (tt, set_rpc_handlers (rpc_handlers s ++ [(name, h)]) s, []).

(** ** The member functions of [ManagerImp] *)

(** The constructor: the store and the logic are constructed, the timer is
    not armed, the queue is empty and [m_checkSources] starts out [true].
    (The console flag the body sets on the journal's sink is not
    represented.) *)
Definition ManagerImp_ctor (journal : Journal) : ManagerImp :=
  {| m_journal := journal;
     m_store := StoreSqdb_ctor;
     m_logic := Logic_ctor;
     m_checkTimer := mkDeadlineTimer the_checkTimer None;
     m_queue := [];
     m_checkSources := true;
     thread_running := false;
     thread_shouldExit := false;
     stoppable_stopping := false;
     stoppable_stopped := false;
     rpc_handlers := [] |}.

(** [Validators::Manager::New] *)
Definition Manager_New (journal : Journal) : ManagerImp := ManagerImp_ctor journal.

(** **** RPC::Service *)

Definition rpcPrint (args : Json.Value) : M Json.Value :=
  on_logic (Logic_rpcPrint args) (fun _ => [ev_Logic_rpcPrint args]).

Definition rpcRebuild (args : Json.Value) : M Json.Value :=
  dispatch bind_Logic_buildChosen;;
  let result := Json.nullValue in
  let result := Json.set_member result "chosen_list" (Json.stringValue "rebuilding") in
  mret result.

Definition rpcSources (args : Json.Value) : M Json.Value :=
  on_logic (Logic_rpcSources args) (fun _ => [ev_Logic_rpcSources args]).

Definition addRPCHandlers : M unit :=
  addRPCHandler "validators_print" bind_ManagerImp_rpcPrint;;
  addRPCHandler "validators_rebuild" bind_ManagerImp_rpcRebuild;;
  addRPCHandler "validators_sources" bind_ManagerImp_rpcSources.

(** **** Stoppable *)

Definition onPrepare (journal : Journal) : M Journal :=
  let journal := journal ++ [(kInfo, "Preparing Validators")] in
  addRPCHandlers;;
  mret journal.

Definition onStart (journal : Journal) : M Journal :=
  let journal := journal ++ [(kInfo, "Starting Validators")] in
  startThread;;
  mret journal.

Definition onStop (journal : Journal) : M Journal :=
  let journal := journal ++ [(kInfo, "Stopping Validators")] in
  running ← isThreadRunning;
  (if running : bool return M unit
   then dispatch bind_Thread_signalThreadShouldExit
   else stopped);;
  mret journal.

(** **** Sources *)

Definition addSource (source : Source) : M unit :=
  dispatch (bind_Logic_add source).

Definition addStaticSource (source : Source) : M unit :=
  dispatch (bind_Logic_addStatic source).

Definition addStrings (name : string) (stringArray : list string) : M unit :=
  addStaticSource (SourceStrings_New name stringArray).

(** The overload taking a [std::vector]: the loop copies the strings, in
    order, into a [StringArray]. *)
Definition addStrings_vector (name : string) (strings : list string) : M unit :=
  let stringArray := fold_left (fun arr str => arr ++ [str]) strings [] in
  addStrings name stringArray.

Definition addFile (file : File) : M unit :=
  addStaticSource (SourceFile_New file).

Definition addURL (url : URL) : M unit :=
  addSource (SourceURL_New url).

(** **** Ingress; both bodies are compiled only under
    [RIPPLE_USE_NEW_VALIDATORS]. *)

Definition receiveValidation (rv : ReceivedValidation) : M unit :=
  if RIPPLE_USE_NEW_VALIDATORS then
    stopping ← isStopping;
    when (negb stopping) (dispatch (bind_Logic_receiveValidation rv))
  else mret tt.

Definition ledgerClosed (ledgerHash : RippleLedgerHash) : M unit :=
  if RIPPLE_USE_NEW_VALIDATORS then
    stopping ← isStopping;
    when (negb stopping) (dispatch (bind_Logic_ledgerClosed ledgerHash))
  else mret tt.

(** **** The thread *)

Definition init : M unit :=
  journal_write kTrace "Initializing";;
  let file := getChildFile userDocumentsDirectory "validators.sqlite" in
  journal_write kTrace ("Opening database at '" +:+ file +:+ "'");;
  error ← on_store (StoreSqdb_open file) (ev_store_open file);
  when error (journal_write kFatal ("Failed to open '" +:+ file +:+ "'"));;
  when (negb error) (on_logic Logic_load (fun _ => [ev_Logic_load])).

Definition setCheckSources : M unit :=
  put_checkSources true.

Definition onDeadlineTimer (timer : TimerRef) : M unit :=
  mine ← is_checkTimer timer;
  when mine (
    journal_write kTrace "Check timer signaled";;
    dispatch bind_ManagerImp_setCheckSources).

Definition checkSources : M unit :=
  flag ← get_checkSources;
  when flag (
    journal_write kTrace "Checking sources";;
    remaining ← on_logic Logic_fetch_one (fun n => [ev_Logic_fetch_one n]);
    when (N.eqb remaining 0) (
      journal_write kTrace "Finished checking sources";;
      put_checkSources false;;
      journal_write kTrace
        ("Next check timer expires in " +:+ RelativeTime_seconds checkEverySeconds);;
      setExpiration checkEverySeconds)).

(** What a dispatched handler does when the queue invokes it. *)
Definition invoke (h : Handler) : M unit :=
  match h with
  | bind_Thread_signalThreadShouldExit => signalThreadShouldExit
  | bind_Logic_buildChosen => on_logic Logic_buildChosen (fun _ => [])
  | bind_Logic_add source => on_logic (Logic_add source) (fun _ => [])
  | bind_Logic_addStatic source => on_logic (Logic_addStatic source) (fun _ => [])
  | bind_Logic_receiveValidation rv => on_logic (Logic_receiveValidation rv) (fun _ => [])
  | bind_Logic_ledgerClosed ledgerHash =>
      on_logic (Logic_ledgerClosed ledgerHash) (fun _ => [])
  | bind_ManagerImp_setCheckSources => setCheckSources
  end.

(** [m_queue.run_one ()]: the handler at the front of the queue is removed
    and invoked, and the call returns 1.  With no handler queued the call
    waits for a producer; here it returns 0 with nothing done, and the
    callers below stop there. *)
Definition run_one : M N :=
  fun s =>
    match m_queue s with
    | [] => (0%N, s, [])
    | h :: rest =>
        let '(_, s', e) := invoke h (set_queue rest s) in
        (1%N, s', ev_run_handler h :: e)
    end.

(** How an execution of [run] bounded by [fuel] turns of its loop ends. *)
Inductive RunStatus : Type :=
| run_returned      (* the loop was left and [stopped] called *)
| run_waiting       (* [run_one] waits on an empty queue *)
| run_in_loop.      (* [fuel] turns were completed *)

Fixpoint run_loop (fuel : nat) : M RunStatus :=
  match fuel with
  | O => mret run_in_loop
  | S fuel' =>
      exit ← threadShouldExit;
      if exit : bool then
        stopped;;
        mret run_returned
      else
        checkSources;;
        ran ← run_one;
        if N.eqb ran 0 then mret run_waiting else run_loop fuel'
  end.

Definition run (fuel : nat) : M RunStatus :=
  init;;
  run_loop fuel.

(** ** The running service

    Other threads call the public member functions at any time; the
    [Stoppable] framework raises the stopping flag and calls [onStop]; a
    deadline timer with a pending expiration notifies its listener once and
    is then idle; the manager's thread, once started, executes [run].  A
    member function runs here as one step, and [run] is cut at the points
    where it can wait or leave: before the loop test and at [run_one]. *)

Inductive Entry : Type :=
| entry_rpcPrint (args : Json.Value)
| entry_rpcRebuild (args : Json.Value)
| entry_rpcSources (args : Json.Value)
| entry_addStrings (name : string) (strings : list string)
| entry_addFile (file : File)
| entry_addURL (url : URL)
| entry_addSource (source : Source)
| entry_addStaticSource (source : Source)
| entry_receiveValidation (rv : ReceivedValidation)
| entry_ledgerClosed (ledgerHash : RippleLedgerHash)
| entry_onPrepare (journal : Journal)
| entry_onStart (journal : Journal).

Definition enter (e : Entry) : M unit :=
  match e with
  | entry_rpcPrint args => rpcPrint args;; mret tt
  | entry_rpcRebuild args => rpcRebuild args;; mret tt
  | entry_rpcSources args => rpcSources args;; mret tt
  | entry_addStrings name strings => addStrings_vector name strings
  | entry_addFile file => addFile file
  | entry_addURL url => addURL url
  | entry_addSource source => addSource source
  | entry_addStaticSource source => addStaticSource source
  | entry_receiveValidation rv => receiveValidation rv
  | entry_ledgerClosed ledgerHash => ledgerClosed ledgerHash
  | entry_onPrepare journal => onPrepare journal;; mret tt
  | entry_onStart journal => onStart journal;; mret tt
  end.

(** [Stoppable::stop]: from here on [isStopping ()] holds, and [onStop] is
    called. *)
Definition Stoppable_stop (journal : Journal) : M unit :=
  (fun s => (tt, set_stopping true s, []));;
  onStop journal;;
  mret tt.

(** Where the manager's thread is in [run]. *)
Inductive ThreadPoint : Type :=
| thread_not_started
| thread_at_loop_test
| thread_at_run_one
| thread_returned.

Record System : Type := mkSystem {
  manager : ManagerImp;
  thread_at : ThreadPoint;
  history : list Event
}.

Inductive Action : Type :=
| act_call (e : Entry)
| act_stop (journal : Journal)
| act_deadline (timer : TimerRef)
| act_thread.

Definition after {A} (sys : System) (point : ThreadPoint) (r : A * ManagerImp * list Event)
  : System :=
  mkSystem (state_of r) point (history sys ++ events_of r).

(** The expiration of [m_checkTimer] elapses: it is pending no more. *)
Definition disarm (s : ManagerImp) : ManagerImp :=
  set_checkTimer (mkDeadlineTimer (timer_ref (m_checkTimer s)) None) s.

(** One step of the service, [None] when the step cannot be taken now. *)
Definition perform (a : Action) (sys : System) : option System :=
  let s := manager sys in
  match a with
  | act_call e => Some (after sys (thread_at sys) (enter e s))
  | act_stop journal => Some (after sys (thread_at sys) (Stoppable_stop journal s))
  | act_deadline the_checkTimer =>
      match expiration (m_checkTimer s) with
      | Some _ => Some (after sys (thread_at sys) (onDeadlineTimer the_checkTimer (disarm s)))
      | None => None
      end
  | act_deadline timer => Some (after sys (thread_at sys) (onDeadlineTimer timer s))
  | act_thread =>
      match thread_at sys with
      | thread_not_started =>
          if thread_running s then Some (after sys thread_at_loop_test (init s)) else None
      | thread_at_loop_test =>
          if thread_shouldExit s
          then Some (after sys thread_returned (stopped s))
          else Some (after sys thread_at_run_one (checkSources s))
      | thread_at_run_one =>
          match m_queue s with
          | [] => None
          | _ :: _ => Some (after sys thread_at_loop_test (run_one s))
          end
      | thread_returned => None
      end
  end.

Fixpoint perform_all (acts : list Action) (sys : System) : option System :=
  match acts with
  | [] => Some sys
  | a :: acts' =>
      match perform a sys with
      | Some sys' => perform_all acts' sys'
      | None => None
      end
  end.

(** The service right after construction. *)
Definition boot (journal : Journal) : System :=
  mkSystem (ManagerImp_ctor journal) thread_not_started [].

(** ** Vocabulary of the properties *)

(** Events by what they tell: a call of [fetch_one], one that returned 0, an
    arming of the check timer, and the timer's signal on its way to the
    queue. *)
Definition is_fetch (e : Event) : bool :=
  match e with ev_Logic_fetch_one _ => true | _ => false end.

Definition completes_pass (e : Event) : bool :=
  match e with ev_Logic_fetch_one n => N.eqb n 0 | _ => false end.

Definition arms_timer (e : Event) : bool :=
  match e with ev_setExpiration _ => true | _ => false end.

Definition signals_check (e : Event) : bool :=
  match e with ev_dispatch bind_ManagerImp_setCheckSources => true | _ => false end.

Definition plain (e : Event) : bool :=
  negb (is_fetch e) && negb (arms_timer e) && negb (signals_check e).


(** How many calls of [fetch_one] a run of events holds, and the handlers
    the queue invoked in it. *)
Definition pulls (es : list Event) : nat := length (List.filter is_fetch es).

Definition handlers_run (es : list Event) : list Handler :=
  flat_map (fun e => match e with ev_run_handler h => [h] | _ => [] end) es.

(** The database file [init] opens. *)
Definition db_file : File := getChildFile userDocumentsDirectory "validators.sqlite".

(** What the call of [fetch_one] in [checkSources] returns in state [s]. *)
Definition fetch_result (s : ManagerImp) : N :=
  fst (Logic_fetch_one (m_journal s ++ [(kTrace, "Checking sources")], m_store s, m_logic s)).

(** A member function that does nothing but dispatch one handler. *)
Definition enqueues_only {A} (op : M A) (s : ManagerImp) : Prop :=
  exists h,
    events_of (op s) = [ev_dispatch h] /\ state_of (op s) = set_queue (m_queue s ++ [h]) s.


(** ** Further vocabulary: handlers and events by kind *)

Definition is_exit_signal (h : Handler) : bool :=
  match h with bind_Thread_signalThreadShouldExit => true | _ => false end.

Definition is_check_signal (h : Handler) : bool :=
  match h with bind_ManagerImp_setCheckSources => true | _ => false end.

Definition dispatches_ingress (e : Event) : bool :=
  match e with
  | ev_dispatch (bind_Logic_receiveValidation _) => true
  | ev_dispatch (bind_Logic_ledgerClosed _) => true
  | _ => false
  end.

(** The handlers a run of events dispatched, and how often it opened the
    store, called [Logic::load] and called [stopped]. *)
Definition dispatched (es : list Event) : list Handler :=
  flat_map (fun e => match e with ev_dispatch h => [h] | _ => [] end) es.

Definition opens (es : list Event) : nat :=
  length (List.filter (fun e => match e with ev_store_open _ _ => true | _ => false end) es).

Definition loads (es : list Event) : nat :=
  length (List.filter (fun e => match e with ev_Logic_load => true | _ => false end) es).

Definition stops (es : list Event) : nat :=
  length (List.filter (fun e => match e with ev_stopped => true | _ => false end) es).

(** What the call of [open] in [init] returns in state [s]: whether it
    failed. *)
Definition open_error (s : ManagerImp) : bool :=
  fst (StoreSqdb_open db_file
         (m_journal s ++ [(kTrace, "Initializing");
                          (kTrace, "Opening database at '" +:+ db_file +:+ "'")],
          m_store s)).

(** The check timer has no expiration pending or the configured one. *)
Definition interval_kept (s : ManagerImp) : Prop :=
  expiration (m_checkTimer s) = None
  \/ expiration (m_checkTimer s) = Some checkEverySeconds.

(** The next check is on its way: the flag is up, or the timer is armed, or
    the timer's handler waits in the queue. *)
Definition check_pending (s : ManagerImp) : Prop :=
  m_checkSources s = true
  \/ expiration (m_checkTimer s) <> None
  \/ existsb is_check_signal (m_queue s) = true.



(** What one call of [addRPCHandlers] registers. *)
Definition registration : list (string * RPCHandler) :=
  rpc_handlers (state_of (addRPCHandlers (ManagerImp_ctor []))).
End Manager.

(** * Logic: reconciliation and Chosen-set construction

    [Logic] is declared in a header that is not part of the source at hand;
    the manager only calls it.  Its state and the operations below follow
    sections 3, 4.1 to 4.5 and 7 of the specification. *)

Module LogicModel.

(** Modelled from the spec: a validator's stable identifier, and the identity
    of a Source (its name or origin descriptor), both missing from src/. *)
Definition Identity : Type := string.
Definition SourceId : Type := string.

(** Modelled from the spec: the ValidatorRecord of section 3 (declared outside
    src/): the Sources it originates from, the running score counters and
    the trust-worthiness flag. *)
Record ValidatorRecord : Type := mkValidatorRecord {
  origins : gset SourceId;
  participated : N;
  rounds_observed : N;
  wasted : N;
  trusted : bool
}.

(** Modelled from the spec: the two ways a pull fails (sections 4.1 and 7;
    the Source classes are not in src/). *)
Inductive FetchError : Type := transient_unavailable | malformed_content.

(** Modelled from the spec: what a pull returns (section 4.1; the Source
    classes are not in src/): a set of identities or a failure. *)
Inductive PullResult : Type :=
| pulled (identities : gset Identity)
| pull_failed (e : FetchError).

(** Modelled from the spec: the last-fetch outcome of a Source (section 3;
    the Source classes are not in src/). *)
Inductive Outcome : Type :=
| never_fetched
| fetch_succeeded
| fetch_failed (e : FetchError).

(** Modelled from the spec: a Source as Logic holds it (section 3; the class
    is not in src/): its origin descriptor, from which identity and kind
    derive, the membership snapshot of its last successful pull, the last
    fetch outcome and the degraded flag. *)
Record SourceState : Type := mkSourceState {
  origin : Source;
  snapshot : gset Identity;
  last_outcome : Outcome;
  degraded : bool
}.

(** Modelled from the spec: the identity of a Source (section 3; the Source
    classes are not in src/): the name, file or address it was made from. *)
Definition source_id (src : Source) : SourceId :=
  match src with
  | SourceStrings_New name _ => name
  | SourceFile_New file => file
  | SourceURL_New url => url
  end.

(** Modelled from the spec: the persisted state layout of section 6 (the
    store's class is not in src/): a record per known validator and the
    last membership snapshot per dynamic Source; [available] tells whether
    the database can be opened. *)
Record Store : Type := mkStore {
  available : bool;
  is_open : bool;
  validator_records : gmap Identity ValidatorRecord;
  source_records : list (Source * gset Identity)
}.

(** Modelled from the spec: the state Logic owns (section 2; the class is not
    in src/): the static sources, the dynamic sources in insertion order with
    the round-robin cursor, the known-validator table, the validations seen
    in the current round, and the Chosen snapshot with its target count and
    the seed of the next rebuild. *)
Record State : Type := mkState {
  static_sources : list SourceState;
  rotation : list SourceState;
  cursor : nat;
  table : gmap Identity ValidatorRecord;
  seen : list (Identity * N);
  chosen : list Identity;
  target : nat;
  seed : N
}.

(** ** The three-way diff and its application (section 4.3, steps 1 to 3) *)

(** Modelled from the spec: the fetch result of section 3 (Logic is not in
    src/): three sets relative to the Source's recorded membership. *)
Record Diff : Type := mkDiff {
  unchanged : gset Identity;
  appeared : gset Identity;
  removed : gset Identity
}.

(** Modelled from the spec: step 1 of fetch-one (Logic is not in src/): each
    previous member is unchanged or removed according to whether the new pull
    still lists it, and each pulled identity that was no member is new. *)
Definition diff (old new : gset Identity) : Diff :=
  {| unchanged := filter (λ i, i ∈ new) old;
     appeared := filter (λ i, i ∉ old) new;
     removed := filter (λ i, i ∉ new) old |}.

(** Modelled from the spec: the record created on the first observation of
    an identity (section 3; Logic is not in src/): no score yet, trusted,
    with the observing Source as its origin. *)
Definition fresh_record (src : SourceId) : ValidatorRecord :=
  {| origins := {[ src ]}; participated := 0; rounds_observed := 0; wasted := 0;
     trusted := true |}.

(** Modelled from the spec: step 2 of fetch-one (Logic is not in src/): the
    record of a new identity is created, or reactivated if it is known, and
    the Source joins its origin set. *)
Definition enrol (src : SourceId) (id : Identity) (t : gmap Identity ValidatorRecord)
  : gmap Identity ValidatorRecord :=
  match t !! id with
  | Some r =>
      <[ id := {| origins := {[ src ]} ∪ origins r;
                  participated := participated r;
                  rounds_observed := rounds_observed r;
                  wasted := wasted r;
                  trusted := true |} ]> t
  | None => <[ id := fresh_record src ]> t
  end.

(** Modelled from the spec: what step 3 of fetch-one does to one record
    (Logic is not in src/). *)
Definition drop_origin (src : SourceId) (r : ValidatorRecord) : ValidatorRecord :=
  let left := origins r ∖ {[ src ]} in
  {| origins := left;
     participated := participated r;
     rounds_observed := rounds_observed r;
     wasted := wasted r;
     trusted := if decide (left = ∅) then false else trusted r |}.

(** Modelled from the spec: step 3 of fetch-one (Logic is not in src/): a
    removed identity loses the Source as an origin, and with no origin left
    its record is marked untrusted; the score counters stay. *)
Definition withdraw (src : SourceId) (id : Identity) (t : gmap Identity ValidatorRecord)
  : gmap Identity ValidatorRecord :=
  alter (drop_origin src) id t.

(** Modelled from the spec: steps 2 and 3 over a whole diff (Logic is not in
    src/). *)
Definition reconcile (src : SourceId) (d : Diff) (t : gmap Identity ValidatorRecord)
  : gmap Identity ValidatorRecord :=
  let t := foldr (enrol src) t (elements (appeared d)) in
  foldr (withdraw src) t (elements (removed d)).

(** ** Fetch-one (section 4.3) *)

(** Modelled from the spec: step 4 of fetch-one (section 4.3 and the store
    contract of section 6; neither Logic nor the store is in src/): the
    touched records and the Source's snapshot are written through to the
    store; a store that is not open takes no write. *)
Definition put_validators (touched : list Identity) (t db : gmap Identity ValidatorRecord)
  : gmap Identity ValidatorRecord :=
  foldr (λ id db, match t !! id with Some r => <[ id := r ]> db | None => db end) db touched.

(** Modelled from the spec: the record of one Source in the store (section 6;
    the store is not in src/), replaced in place or added at the end. *)
Fixpoint put_source (src : Source) (members : gset Identity)
    (records : list (Source * gset Identity)) : list (Source * gset Identity) :=
  match records with
  | [] => [(src, members)]
  | (s, old) :: rest =>
      if String.eqb (source_id s) (source_id src)
      then (src, members) :: rest
      else (s, old) :: put_source src members rest
  end.

(** Modelled from the spec: write-through of validator records alone
    (section 6; the store is not in src/). *)
Definition persist_records (touched : list Identity) (t : gmap Identity ValidatorRecord)
    (store : Store) : Store :=
  if is_open store then
    {| available := available store;
       is_open := true;
       validator_records := put_validators touched t (validator_records store);
       source_records := source_records store |}
  else store.

(** Modelled from the spec: write-through of a reconciliation (section 4.3,
    step 4; the store is not in src/). *)
Definition persist (src : Source) (members : gset Identity) (touched : list Identity)
    (t : gmap Identity ValidatorRecord) (store : Store) : Store :=
  if is_open store then
    {| available := available store;
       is_open := true;
       validator_records := put_validators touched t (validator_records store);
       source_records := put_source src members (source_records store) |}
  else store.

(** The state of Logic with its rotation, cursor and table replaced. *)
Definition with_rotation (sources : list SourceState) (next : nat)
    (t : gmap Identity ValidatorRecord) (st : State) : State :=
  {| static_sources := static_sources st;
     rotation := sources;
     cursor := next;
     table := t;
     seen := seen st;
     chosen := chosen st;
     target := target st;
     seed := seed st |}.

(** Modelled from the spec: [Logic::fetch_one] (section 4.3; Logic is not in
    src/).  The Source under the round-robin cursor is pulled; on success its
    diff is applied, its snapshot replaced and both written to the store; on
    a failure only its last outcome (and, for malformed content, its degraded
    flag) is recorded.  Either way the cursor moves on, wrapping after the
    last Source, and the number of Sources not yet visited in this rotation
    is returned.  With no dynamic Source there is nothing to visit. *)
Definition fetchOne (pull : Source -> PullResult) (store : Store) (st : State)
  : N * (Store * State) :=
  match rotation st !! cursor st with
  | None => (0%N, (store, with_rotation (rotation st) 0 (table st) st))
  | Some src =>
      let visited := S (cursor st) in
      let remaining := length (rotation st) - visited in
      let next := if decide (remaining = 0) then 0 else visited in
      match pull (origin src) with
      | pulled members =>
          let d := diff (snapshot src) members in
          let t := reconcile (source_id (origin src)) d (table st) in
          let src' := {| origin := origin src; snapshot := members;
                         last_outcome := fetch_succeeded; degraded := false |} in
          let touched := elements (appeared d) ++ elements (removed d) in
          (N.of_nat remaining,
           (persist (origin src) members touched t store,
            with_rotation (<[ cursor st := src' ]> (rotation st)) next t st))
      | pull_failed e =>
          let src' := {| origin := origin src; snapshot := snapshot src;
                         last_outcome := fetch_failed e;
                         degraded := match e with
                                     | malformed_content => true
                                     | transient_unavailable => degraded src
                                     end |} in
          (N.of_nat remaining,
           (store,
            with_rotation (<[ cursor st := src' ]> (rotation st)) next (table st) st))
      end
  end.

(** ** Chosen-set construction (section 4.5) *)

Section Choosing.

(** The weight of a record, a monotonic function of its participation score
    which the specification leaves open, and the pseudo-random generator: one
    draw and the following seed. *)
Variable weight : ValidatorRecord -> N.
Variable prng : N -> N * N.

(** An entry of the known-validator table. *)
Definition Candidate : Type := Identity * ValidatorRecord.

(** Modelled from the spec: the known-validator table filtered to
    trust-worthiness true (section 4.5; Logic is not in src/). *)
Definition trusted_population (t : gmap Identity ValidatorRecord) : list Candidate :=
  map_to_list (filter (λ kv, trusted kv.2 = true) t).

(** Modelled from the spec: the weights of section 4.5 summed over a pool
    (Logic is not in src/). *)
Definition total_weight (pool : list Candidate) : N :=
  foldr (λ c acc, (weight c.2 + acc)%N) 0%N pool.

(** Modelled from the spec: one weighted draw (section 4.5; Logic is not in
    src/): the candidate in whose weight interval the draw [r] falls, and
    the pool without it; a draw beyond the total weight takes the last
    candidate. *)
Fixpoint pick (r : N) (pool : list Candidate) : option (Candidate * list Candidate) :=
  match pool with
  | [] => None
  | c :: rest =>
      if (r <? weight c.2)%N then Some (c, rest)
      else
        match pick (r - weight c.2) rest with
        | Some (c', rest') => Some (c', c :: rest')
        | None => Some (c, rest)
        end
  end.

(** Modelled from the spec: weighted sampling without replacement of up to
    [k] candidates (section 4.5; Logic is not in src/). *)
Fixpoint sample (k : nat) (s : N) (pool : list Candidate) : list Candidate :=
  match k with
  | O => []
  | S k' =>
      let '(r, s') := prng s in
      match pick (r mod total_weight pool) pool with
      | Some (c, rest) => c :: sample k' s' rest
      | None => []
      end
  end.

(** Modelled from the spec: the selection of section 4.5 (Logic is not in
    src/): the whole trusted population when it fits the target count [T],
    and otherwise [T] candidates sampled by weight without replacement. *)
Definition choose (T : nat) (s : N) (t : gmap Identity ValidatorRecord) : list Identity :=
  let population := trusted_population t in
  if decide (length population ≤ T)%nat
  then population.*1
  else (sample T s population).*1.

(** Modelled from the spec: [Logic::buildChosen] (section 4.5; Logic is not
    in src/): the Chosen snapshot is replaced as a whole, and the next
    rebuild starts from a fresh seed. *)
Definition buildChosen (st : State) : State :=
  {| static_sources := static_sources st;
     rotation := rotation st;
     cursor := cursor st;
     table := table st;
     seen := seen st;
     chosen := choose (target st) (seed st) (table st);
     target := target st;
     seed := snd (prng (seed st)) |}.

End Choosing.

(** ** Source management, scoring, loading and the queries *)

(** Modelled from the spec: whether a Source identity is present already
    (section 4.2; Logic is not in src/). *)
Definition known_source (id : SourceId) (st : State) : bool :=
  existsb (λ src, String.eqb (source_id (origin src)) id) (static_sources st ++ rotation st).

(** Modelled from the spec: [Logic::add] (section 4.2; Logic is not in src/):
    a dynamic Source joins the back of the rotation; a Source identity that
    is already present is a no-op. *)
Definition add (src : Source) (st : State) : State :=
  if known_source (source_id src) st then st
  else with_rotation (rotation st ++ [mkSourceState src ∅ never_fetched false])
         (cursor st) (table st) st.

(** The state of Logic with its static sources and table replaced. *)
Definition with_statics (sources : list SourceState) (t : gmap Identity ValidatorRecord)
    (st : State) : State :=
  {| static_sources := sources;
     rotation := rotation st;
     cursor := cursor st;
     table := t;
     seen := seen st;
     chosen := chosen st;
     target := target st;
     seed := seed st |}.

(** Modelled from the spec: [Logic::addStatic] (section 4.2; Logic is not in
    src/): a static Source is fetched once, when it is added, and never joins
    the rotation. *)
Definition addStatic (pull : Source -> PullResult) (src : Source) (store : Store) (st : State)
  : Store * State :=
  if known_source (source_id src) st then (store, st)
  else
    match pull src with
    | pulled members =>
        let d := diff ∅ members in
        let t := reconcile (source_id src) d (table st) in
        (persist_records (elements (appeared d)) t store,
         with_statics (static_sources st ++ [mkSourceState src members fetch_succeeded false])
           t st)
    | pull_failed e =>
        (store,
         with_statics (static_sources st ++ [mkSourceState src ∅ (fetch_failed e) true])
           (table st) st)
    end.

(** The state of Logic with its table and pending validations replaced. *)
Definition with_scores (t : gmap Identity ValidatorRecord) (pending : list (Identity * N))
    (st : State) : State :=
  {| static_sources := static_sources st;
     rotation := rotation st;
     cursor := cursor st;
     table := t;
     seen := pending;
     chosen := chosen st;
     target := target st;
     seed := seed st |}.

(** Modelled from the spec: the three counters of section 4.4, each
    incremented by one (Logic is not in src/). *)
Definition count_participation (r : ValidatorRecord) : ValidatorRecord :=
  {| origins := origins r; participated := participated r + 1;
     rounds_observed := rounds_observed r; wasted := wasted r; trusted := trusted r |}.

Definition count_round (r : ValidatorRecord) : ValidatorRecord :=
  {| origins := origins r; participated := participated r;
     rounds_observed := rounds_observed r + 1; wasted := wasted r; trusted := trusted r |}.

Definition count_wasted (r : ValidatorRecord) : ValidatorRecord :=
  {| origins := origins r; participated := participated r;
     rounds_observed := rounds_observed r; wasted := wasted r + 1; trusted := trusted r |}.

(** Modelled from the spec: [Logic::receiveValidation] (section 4.4; Logic is
    not in src/): the signer's participation counter is incremented and the
    validation remembered until the round closes; the record is written
    through.  A validation is the signer and the hash of the ledger it
    validates. *)
Definition receiveValidation (rv : Identity * N) (store : Store) (st : State)
  : Store * State :=
  let t := alter count_participation rv.1 (table st) in
  (persist_records [rv.1] t store, with_scores t (seen st ++ [rv]) st).

(** Modelled from the spec: [Logic::ledgerClosed] (section 4.4; Logic is not
    in src/): the round closes; every validation seen for another ledger
    than the accepted one counts as wasted for its signer; the records are
    written through. *)
Definition ledgerClosed (accepted : N) (store : Store) (st : State) : Store * State :=
  let t := count_round <$> table st in
  let t := foldr (λ rv t, if N.eqb rv.2 accepted then t else alter count_wasted rv.1 t)
             t (seen st) in
  (persist_records (map_to_list t).*1 t store, with_scores t [] st).

(** Modelled from the spec: load at startup (section 6; Logic is not in
    src/): the tables are populated from the store's records. *)
Definition load (store : Store) (st : State) : State :=
  with_rotation
    (map (λ rec, mkSourceState rec.1 rec.2 never_fetched false) (source_records store))
    0 (validator_records store) st.

(** Modelled from the spec: how the [sources] query shows an outcome (section
    6; Logic is not in src/). *)
Definition outcome_text (o : Outcome) : string :=
  match o with
  | never_fetched => "never fetched"
  | fetch_succeeded => "ok"
  | fetch_failed transient_unavailable => "unavailable"
  | fetch_failed malformed_content => "malformed"
  end.

(** Modelled from the spec: the [sources] query (section 6; Logic is not in
    src/): the configured Sources with their last fetch outcome. *)
Definition rpcSources (st : State) : Json.Value :=
  Json.objectValue
    (map (λ src, (source_id (origin src), Json.stringValue (outcome_text (last_outcome src))))
       (static_sources st ++ rotation st)).

(** Modelled from the spec: the [print] query (section 6; Logic is not in
    src/): the known validators with their trust flag, the Chosen set and
    the per-Source state. *)
Definition rpcPrint (st : State) : Json.Value :=
  Json.objectValue
    [ ("validators",
       Json.objectValue
         (map (λ kv, (kv.1, Json.stringValue (if trusted kv.2 then "trusted" else "untrusted")))
            (map_to_list (table st))));
      ("chosen", Json.objectValue (map (λ id, (id, Json.nullValue)) (chosen st)));
      ("sources", rpcSources st) ].

(** Modelled from the spec: opening the store (section 7; the store's class
    is not in src/): it fails when the database is unavailable. *)
Definition open (file : File) (store : Store) : bool * Store :=
  if available store
  then (false, mkStore true true (validator_records store) (source_records store))
  else (true, store).

(** ** The engine as the manager's collaborators *)

(** Modelled from the spec: the store and Logic behind the interface the
    manager calls (neither is in src/).  [every] is the check interval in
    seconds, [T] the target count, [disk] the store as construction finds
    it, and [pull] what the Sources return when pulled. *)
Definition collaborators (pull : Source -> PullResult)
    (weight : ValidatorRecord -> N) (prng : N -> N * N)
    (every : N) (T : nat) (seed0 : N) (disk : Store)
    (use_new_validators : bool) (documents : File)
  : Collaborators Store State (Identity * N) N :=
  {| StoreSqdb_ctor := disk;
     Logic_ctor := mkState [] [] 0 ∅ [] [] T seed0;
     StoreSqdb_open := λ file '(j, store), let '(e, store') := open file store in (e, (j, store'));
     Logic_load := λ '(j, store, st), (tt, (j, store, load store st));
     Logic_fetch_one := λ '(j, store, st),
       let '(n, (store', st')) := fetchOne pull store st in (n, (j, store', st'));
     Logic_buildChosen := λ '(j, store, st), (tt, (j, store, buildChosen weight prng st));
     Logic_add := λ src '(j, store, st), (tt, (j, store, add src st));
     Logic_addStatic := λ src '(j, store, st),
       let '(store', st') := addStatic pull src store st in (tt, (j, store', st'));
     Logic_receiveValidation := λ rv '(j, store, st),
       let '(store', st') := receiveValidation rv store st in (tt, (j, store', st'));
     Logic_ledgerClosed := λ h '(j, store, st),
       let '(store', st') := ledgerClosed h store st in (tt, (j, store', st'));
     Logic_rpcPrint := λ args '(j, store, st), (rpcPrint st, (j, store, st));
     Logic_rpcSources := λ args '(j, store, st), (rpcSources st, (j, store, st));
     checkEverySeconds := every;
     RIPPLE_USE_NEW_VALIDATORS := use_new_validators;
     userDocumentsDirectory := documents;
     RelativeTime_seconds := λ n, pretty n +:+ "s" |}.

End LogicModel.

(** * A deployment

    A concrete engine on which the member functions run: three remote
    Sources, one of them unreachable, a check every 300 seconds and a target
    of two Chosen validators. *)

Module Deployment.

Import LogicModel.

Definition pull (src : Source) : PullResult :=
  match src with
  | SourceURL_New "alpha" => pulled {[ "B"; "C"; "D" ]}
  | SourceURL_New "beta" => pull_failed transient_unavailable
  | SourceURL_New "gamma" => pulled {[ "B"; "E" ]}
  | SourceStrings_New _ strings => pulled (list_to_set strings)
  | _ => pull_failed malformed_content
  end.

Definition weight (r : ValidatorRecord) : N := participated r + 1.

Definition prng (s : N) : N * N :=
  let s' := ((s * 1103515245 + 12345) mod 2147483648)%N in (s', s').

(** A database that opens, one that holds two Sources from an earlier run,
    and one that cannot be opened. *)
Definition disk_empty : Store := mkStore true false ∅ [].

Definition disk_seeded : Store :=
  mkStore true false ∅ [(SourceURL_New "alpha", ∅); (SourceURL_New "beta", {[ "Z" ]})].

Definition disk_down : Store := mkStore false false ∅ [].

Definition engine (disk : Store) : Collaborators Store State (Identity * N) N :=
  collaborators pull weight prng 300 2 1 disk true "/var/lib/rippled".

(** The manager after construction and [onStart], with one Source added by a
    producer, before its thread has run. *)
Definition started (disk : Store) : ManagerImp :=
  let s := ManagerImp_ctor (C := engine disk) [] in
  let s := state_of (onStart [] s) in
  state_of (addURL "gamma" s).

(** The same manager after [init]. *)
Definition loaded (disk : Store) : ManagerImp :=
  state_of (init (C := engine disk) (started disk)).

(** A table of three trusted validators and one that dropped off all
    Sources, and the state of Logic holding it: Source alpha listed A, B and
    C at its last pull, Source beta listed B; [T] is the target count and
    [next] the position of the cursor. *)
Definition table4 : gmap Identity ValidatorRecord :=
  {[ "A" := mkValidatorRecord {[ "alpha" ]} 9 10 0 true;
     "B" := mkValidatorRecord {[ "alpha"; "beta" ]} 5 10 1 true;
     "C" := mkValidatorRecord {[ "alpha" ]} 1 10 0 true;
     "D" := mkValidatorRecord ∅ 7 10 2 false ]}.

Definition state4 (T next : nat) : State :=
  mkState []
    [ mkSourceState (SourceURL_New "alpha") {[ "A"; "B"; "C" ]} fetch_succeeded false;
      mkSourceState (SourceURL_New "beta") {[ "B" ]} fetch_succeeded false ]
    next table4 [] [] T 1.

(** The service after [onStart] and the first two steps of its thread, [init]
    and [checkSources], on the seeded database. *)
Definition first_steps
  : list (Action (ReceivedValidation := Identity * N) (RippleLedgerHash := N)) :=
  [act_call (entry_onStart []); act_thread; act_thread].

Definition after_first_steps : System :=
  default (boot (C := engine disk_seeded) [])
    (perform_all (C := engine disk_seeded) first_steps (boot (C := engine disk_seeded) [])).

(** The service at the loop test of [run] with the check flag up, on the
    empty database. *)
Definition at_loop_test : System :=
  mkSystem (loaded disk_empty) thread_at_loop_test [].

(** The manager after the first pass of the loop on the empty database, which
    completed the check, and with one more Source added by a producer since:
    the flag is down, the timer armed and one handler queued. *)
Definition settled : ManagerImp :=
  let s := state_of (run_loop (C := engine disk_empty) 1 (loaded disk_empty)) in
  state_of (addURL "alpha" s).

(** A day of the service on the empty database: it is prepared and started,
    a Source is added, the thread initialises, completes the first check and
    invokes the handler; the check timer expires, a rebuild is requested,
    the thread invokes the timer's handler; then stop is requested. *)
Definition a_day
  : list (Action (ReceivedValidation := Identity * N) (RippleLedgerHash := N)) :=
  [ act_call (entry_onPrepare []); act_call (entry_onStart []);
    act_call (entry_addURL "gamma");
    act_thread; act_thread; act_thread;
    act_deadline the_checkTimer; act_call (entry_rpcRebuild Json.nullValue);
    act_thread; act_thread;
    act_stop [] ].

Definition after_a_day : System :=
  default (boot (C := engine disk_empty) [])
    (perform_all (C := engine disk_empty) a_day (boot (C := engine disk_empty) [])).

(** What reaches the service after the stop request: a validation, a ledger
    close, and a step of the thread. *)
Definition late_calls
  : list (Action (ReceivedValidation := Identity * N) (RippleLedgerHash := N)) :=
  [ act_call (entry_receiveValidation ("A", 1%N)); act_call (entry_ledgerClosed 7%N);
    act_thread ].

Definition after_late_calls : System :=
  default after_first_steps
    (perform_all (C := engine disk_seeded) (act_stop [] :: late_calls) after_first_steps).




End Deployment.

(** * Properties of the manager *)

Set Warnings "-clear-no-such-hyp".

Section ManagerProperties.

Context {StoreSqdb Logic ReceivedValidation RippleLedgerHash : Type}.
Context `{C : Collaborators StoreSqdb Logic ReceivedValidation RippleLedgerHash}.

Implicit Types (s : @ManagerImp StoreSqdb Logic ReceivedValidation RippleLedgerHash).
Implicit Types (sys : @System StoreSqdb Logic ReceivedValidation RippleLedgerHash).
Implicit Types (es : list (@Event ReceivedValidation RippleLedgerHash)).
Implicit Types (h : @Handler ReceivedValidation RippleLedgerHash).
Implicit Types (a : @Action ReceivedValidation RippleLedgerHash).

Ltac unfold_M :=
  unfold mbind, mret, M_bind, M_ret, bind, ret, when, journal_write, on_logic, on_store,
    dispatch, setExpiration, get_checkSources, put_checkSources, is_checkTimer,
    isThreadRunning, threadShouldExit, signalThreadShouldExit, startThread, isStopping,
    stopped, addRPCHandler, result_of, state_of, events_of in *.

Ltac split_call :=
  match goal with
  | |- context [StoreSqdb_open ?f ?x] => destruct (StoreSqdb_open f x) as [? [? ?]] eqn:?
  | |- context [Logic_load ?x] => destruct (Logic_load x) as [? [[? ?] ?]] eqn:?
  | |- context [Logic_fetch_one ?x] => destruct (Logic_fetch_one x) as [? [[? ?] ?]] eqn:?
  | |- context [Logic_buildChosen ?x] => destruct (Logic_buildChosen x) as [? [[? ?] ?]] eqn:?
  | |- context [Logic_add ?a ?x] => destruct (Logic_add a x) as [? [[? ?] ?]] eqn:?
  | |- context [Logic_addStatic ?a ?x] => destruct (Logic_addStatic a x) as [? [[? ?] ?]] eqn:?
  | |- context [Logic_receiveValidation ?a ?x] =>
      destruct (Logic_receiveValidation a x) as [? [[? ?] ?]] eqn:?
  | |- context [Logic_ledgerClosed ?a ?x] =>
      destruct (Logic_ledgerClosed a x) as [? [[? ?] ?]] eqn:?
  | |- context [Logic_rpcPrint ?a ?x] => destruct (Logic_rpcPrint a x) as [? [[? ?] ?]] eqn:?
  | |- context [Logic_rpcSources ?a ?x] => destruct (Logic_rpcSources a x) as [? [[? ?] ?]] eqn:?
  end.

Ltac split_calls :=
  repeat (simpl;
    first [ split_call
          | match goal with
            | |- context [if ?b then _ else _] => destruct b eqn:?
            end ]); simpl.

Ltac unfold_members :=
  unfold enter, Stoppable_stop, rpcPrint, rpcRebuild, rpcSources, addStrings_vector, addStrings,
    addFile, addURL, addSource, addStaticSource, receiveValidation, ledgerClosed,
    onPrepare, onStart, onStop, addRPCHandlers, init, setCheckSources, onDeadlineTimer,
    checkSources, invoke, run_one in *.

Ltac crunch := unfold_members; unfold_M; split_calls.

(** ** What each member function leaves alone *)

Lemma checkSources_cases s :
  m_checkSources s = true ->
  (fetch_result s = 0%N
   /\ m_checkSources (state_of (checkSources s)) = false
   /\ events_of (checkSources s)
      = [ev_Logic_fetch_one 0; ev_setExpiration checkEverySeconds])
  \/ (fetch_result s <> 0%N
      /\ m_checkSources (state_of (checkSources s)) = true
      /\ m_checkTimer (state_of (checkSources s)) = m_checkTimer s
      /\ events_of (checkSources s) = [ev_Logic_fetch_one (fetch_result s)]).
Proof.
  intros Hflag. unfold fetch_result, checkSources. unfold_M. rewrite Hflag. simpl.
  destruct (Logic_fetch_one _) as [n [[j st] l]]. simpl.
  destruct (N.eqb_spec n 0) as [->|Hn]; simpl; [left|right]; auto.
Qed.

Lemma checkSources_idle s :
  m_checkSources s = false -> checkSources s = (tt, s, []).
Proof. intros H. unfold checkSources. unfold_M. rewrite H. reflexivity. Qed.

Lemma checkSources_frame s :
  m_queue (state_of (checkSources s)) = m_queue s
  /\ thread_shouldExit (state_of (checkSources s)) = thread_shouldExit s
  /\ timer_ref (m_checkTimer (state_of (checkSources s))) = timer_ref (m_checkTimer s)
  /\ forallb (fun e => negb (signals_check e)) (events_of (checkSources s)) = true
  /\ handlers_run (events_of (checkSources s)) = [].
Proof. crunch; auto. Qed.

Lemma enter_frame e s :
  m_checkSources (state_of (enter e s)) = m_checkSources s
  /\ m_checkTimer (state_of (enter e s)) = m_checkTimer s
  /\ forallb plain (events_of (enter e s)) = true.
Proof.
  destruct e; crunch; auto.
Qed.

Lemma invoke_frame h s :
  (m_checkSources s = true -> m_checkSources (state_of (invoke h s)) = true)
  /\ m_checkTimer (state_of (invoke h s)) = m_checkTimer s
  /\ events_of (invoke h s) = [].
Proof.
  destruct h; crunch; auto.
Qed.

Lemma stop_frame journal s :
  m_checkSources (state_of (Stoppable_stop journal s)) = m_checkSources s
  /\ m_checkTimer (state_of (Stoppable_stop journal s)) = m_checkTimer s
  /\ forallb plain (events_of (Stoppable_stop journal s)) = true.
Proof. crunch; auto. Qed.

Lemma init_frame s :
  m_checkSources (state_of (init s)) = m_checkSources s
  /\ m_checkTimer (state_of (init s)) = m_checkTimer s
  /\ forallb plain (events_of (init s)) = true.
Proof. crunch; auto. Qed.

Lemma stopped_frame s :
  m_checkSources (state_of (stopped s)) = m_checkSources s
  /\ m_checkTimer (state_of (stopped s)) = m_checkTimer s
  /\ forallb plain (events_of (stopped s)) = true.
Proof. crunch; auto. Qed.

Lemma onDeadlineTimer_frame timer s :
  m_checkSources (state_of (onDeadlineTimer timer s)) = m_checkSources s
  /\ m_checkTimer (state_of (onDeadlineTimer timer s)) = m_checkTimer s
  /\ forallb (fun e => negb (is_fetch e) && negb (arms_timer e))
       (events_of (onDeadlineTimer timer s)) = true
  /\ (TimerRef_eqb timer (timer_ref (m_checkTimer s)) = false ->
      events_of (onDeadlineTimer timer s) = []).
Proof. crunch; repeat split; auto; intros; congruence. Qed.

Lemma run_one_frame s :
  (m_checkSources s = true -> m_checkSources (state_of (run_one s)) = true)
  /\ m_checkTimer (state_of (run_one s)) = m_checkTimer s
  /\ forallb plain (events_of (run_one s)) = true.
Proof.
  unfold run_one. destruct (m_queue s) as [|h rest]; simpl; [auto|].
  pose proof (invoke_frame h (set_queue rest s)) as (Hf & Ht & He).
  destruct (invoke h (set_queue rest s)) as [[u s'] es]. unfold_M. simpl in *.
  subst es. auto.
Qed.

Lemma plain_quiet es :
  forallb plain es = true ->
  existsb completes_pass es = false /\ existsb arms_timer es = false
  /\ existsb signals_check es = false.
Proof.
  induction es as [|e es IH]; simpl; [auto|].
  intros H. apply andb_prop in H as [He Hes]. destruct (IH Hes) as (? & ? & ?).
  unfold plain in He. destruct e; simpl in *; try discriminate; auto.
  destruct h; simpl in *; try discriminate; auto.
Qed.





Lemma flag_cleared_only_by_pass a sys sys' :
  perform a sys = Some sys' ->
  m_checkSources (manager sys) = true ->
  m_checkSources (manager sys') = false ->
  a = act_thread
  /\ thread_at sys = thread_at_loop_test
  /\ history sys' = history sys ++ [ev_Logic_fetch_one 0; ev_setExpiration checkEverySeconds].
Proof.
  intros Hstep Hset Hclear.
  destruct a as [e|journal|timer|]; simpl in Hstep.
  - inversion Hstep; subst. simpl in *. destruct (enter_frame e (manager sys)). congruence.
  - inversion Hstep; subst. simpl in *. destruct (stop_frame journal (manager sys)). congruence.
  - destruct timer.
    + destruct (expiration _); inversion Hstep; subst. simpl in *.
      destruct (onDeadlineTimer_frame the_checkTimer (disarm (manager sys))) as [Hf _].
      simpl in Hf. congruence.
    + inversion Hstep; subst. simpl in *.
      destruct (onDeadlineTimer_frame (other_timer n) (manager sys)) as [Hf _]. congruence.
  - destruct (thread_at sys).
    + destruct (thread_running _); inversion Hstep; subst. simpl in *.
      destruct (init_frame (manager sys)). congruence.
    + destruct (thread_shouldExit _); inversion Hstep; subst; simpl in *.
      * destruct (stopped_frame (manager sys)). congruence.
      * destruct (checkSources_cases (manager sys) Hset)
          as [(_ & _ & Hev)|(_ & Hup & _)]; [|congruence].
        rewrite Hev. auto.
    + destruct (m_queue (manager sys)) eqn:Hq; inversion Hstep; subst. simpl in *.
      destruct (run_one_frame (manager sys)) as [Hf _]. specialize (Hf Hset).
      congruence.
    + discriminate.
Qed.

Lemma run_loop_first_pass fuel s h rest :
  thread_shouldExit s = false -> m_queue s = h :: rest ->
  exists es, events_of (run_loop (S fuel) s)
             = events_of (checkSources s) ++ ev_run_handler h :: es.
Proof.
  intros Hexit Hqueue.
  destruct (checkSources_frame s) as (Hq & _).
  simpl. unfold threadShouldExit. unfold_M. rewrite Hexit. simpl.
  destruct (checkSources s) as [[u s1] es1] eqn:Hcs. simpl in *.
  unfold run_one. rewrite Hq, Hqueue.
  pose proof (invoke_frame h (set_queue rest s1)) as (_ & _ & He).
  destruct (invoke h (set_queue rest s1)) as [[u2 s2] es2]. simpl in *. subst es2.
  destruct (run_loop fuel s2) as [[st s3] es3]. simpl.
  exists es3. reflexivity.
Qed.

Lemma no_fetch_no_arm es :
  forallb (fun e => negb (is_fetch e) && negb (arms_timer e)) es = true ->
  existsb completes_pass es = false /\ existsb arms_timer es = false.
Proof.
  induction es as [|e es IH]; simpl; [auto|].
  intros H. apply andb_prop in H as [He Hes]. destruct (IH Hes) as (? & ?).
  destruct e; simpl in *; try discriminate; auto.
Qed.

Lemma quiet_step_settles {A} sys point (r : A * ManagerImp * list Event) :
  (m_checkSources (manager sys) = true -> m_checkSources (state_of r) = true) ->
  existsb completes_pass (events_of r) = false ->
  existsb arms_timer (events_of r) = false ->
  exists new,
    history (after sys point r) = history sys ++ new
    /\ existsb arms_timer new = existsb completes_pass new
    /\ (existsb completes_pass new = true
        <-> m_checkSources (manager sys) = true
            /\ m_checkSources (manager (after sys point r)) = false)
    /\ (forall d, In (ev_setExpiration d) new -> d = checkEverySeconds).
Proof.
  intros Hup Hc Ha. exists (events_of r). simpl.
  split; [reflexivity|]. split; [congruence|]. split.
  - rewrite Hc. split; [discriminate|]. intros [H1 H2]. rewrite (Hup H1) in H2. discriminate.
  - intros d Hin. exfalso.
    assert (Hex : existsb arms_timer (events_of r) = true)
      by (apply existsb_exists; exists (ev_setExpiration d); auto).
    congruence.
Qed.

Lemma step_settles a sys sys' :
  perform a sys = Some sys' ->
  exists new,
    history sys' = history sys ++ new
    /\ existsb arms_timer new = existsb completes_pass new
    /\ (existsb completes_pass new = true
        <-> m_checkSources (manager sys) = true /\ m_checkSources (manager sys') = false)
    /\ (forall d, In (ev_setExpiration d) new -> d = checkEverySeconds).
Proof.
  intros Hstep.
  destruct a as [e|journal|timer|]; simpl in Hstep.
  - inversion Hstep as [Heq]; clear Hstep Heq.
    destruct (enter_frame e (manager sys)) as (Hf & _ & He).
    apply plain_quiet in He as (Hc & Ha & _).
    apply quiet_step_settles; auto. congruence.
  - inversion Hstep as [Heq]; clear Hstep Heq.
    destruct (stop_frame journal (manager sys)) as (Hf & _ & He).
    apply plain_quiet in He as (Hc & Ha & _).
    apply quiet_step_settles; auto. congruence.
  - destruct timer as [|n].
    + destruct (expiration (m_checkTimer (manager sys))); [|discriminate].
      inversion Hstep as [Heq]; clear Hstep Heq.
      destruct (onDeadlineTimer_frame the_checkTimer (disarm (manager sys))) as (Hf & _ & He & _).
      apply no_fetch_no_arm in He as (Hc & Ha).
      apply quiet_step_settles; auto. simpl in Hf. congruence.
    + inversion Hstep as [Heq]; clear Hstep Heq.
      destruct (onDeadlineTimer_frame (other_timer n) (manager sys)) as (Hf & _ & He & _).
      apply no_fetch_no_arm in He as (Hc & Ha).
      apply quiet_step_settles; auto. congruence.
  - destruct (thread_at sys).
    + destruct (thread_running (manager sys)); [|discriminate].
      inversion Hstep as [Heq]; clear Hstep Heq.
      destruct (init_frame (manager sys)) as (Hf & _ & He).
      apply plain_quiet in He as (Hc & Ha & _).
      apply quiet_step_settles; auto. congruence.
    + destruct (thread_shouldExit (manager sys)).
      * inversion Hstep as [Heq]; clear Hstep Heq.
        destruct (stopped_frame (manager sys)) as (Hf & _ & He).
        apply plain_quiet in He as (Hc & Ha & _).
        apply quiet_step_settles; auto.
      * inversion Hstep as [Heq]; clear Hstep Heq.
        exists (events_of (checkSources (manager sys))). simpl.
        split; [reflexivity|].
        destruct (m_checkSources (manager sys)) eqn:Hflag.
        -- destruct (checkSources_cases (manager sys) Hflag)
             as [(_ & Hdown & Hev)|(_ & Hup & _ & Hev)]; rewrite Hev; simpl.
           ++ rewrite Hdown. split; [reflexivity|]. split; [tauto|].
              intros d [H|[H|[]]]; [discriminate H|]. injection H as <-. reflexivity.
           ++ rewrite Hup.
              destruct (N.eqb_spec (fetch_result (manager sys)) 0) as [Hz|Hnz].
              ** destruct (checkSources_cases (manager sys) Hflag)
                   as [(_ & Hdown & _)|(Hnz & _)]; congruence.
              ** split; [reflexivity|]. split.
                 { split; [discriminate|]. intros [_ H]. discriminate H. }
                 intros d [H|[]]. discriminate H.
        -- rewrite (checkSources_idle (manager sys) Hflag). simpl.
           split; [reflexivity|]. split.
           { split; [discriminate|]. intros [H _]. discriminate H. }
           intros d [].
    + destruct (m_queue (manager sys)); [discriminate|].
      inversion Hstep as [Heq]; clear Hstep Heq.
      destruct (run_one_frame (manager sys)) as (Hf & _ & He).
      apply plain_quiet in He as (Hc & Ha & _).
      apply quiet_step_settles; auto.
    + discriminate.
Qed.


Lemma handlers_run_app es1 es2 :
  handlers_run (es1 ++ es2) = handlers_run es1 ++ handlers_run es2.
Proof. unfold handlers_run. apply flat_map_app. Qed.

Lemma checkSources_pulls s :
  pulls (events_of (checkSources s)) = if m_checkSources s then 1%nat else 0%nat.
Proof.
  destruct (m_checkSources s) eqn:Hflag.
  - destruct (checkSources_cases s Hflag) as [(_ & _ & ->)|(_ & _ & _ & ->)]; reflexivity.
  - rewrite (checkSources_idle s Hflag). reflexivity.
Qed.


(** ** The claims about the manager *)

(** C1: with the check flag up, [checkSources] calls [fetch_one] once; the
    flag is cleared exactly when that call returns 0, and the check timer is
    armed exactly then, with [checkEverySeconds]; on any other count the flag
    stays up and the timer is left as it was.  No other step of the service
    clears the flag or arms the timer: the events of a step hold an arming
    exactly when they hold a call of [fetch_one] that returned 0, which is
    exactly when the step takes the flag down. *)
Theorem checkSources_settles_exactly_on_zero :
  (forall s,
     m_checkSources s = true ->
     let r := checkSources s in
     let n := fetch_result s in
     head (events_of r) = Some (ev_Logic_fetch_one n)
     /\ (m_checkSources (state_of r) = false <-> n = 0%N)
     /\ (existsb arms_timer (events_of r) = true <-> n = 0%N)
     /\ (n = 0%N ->
         expiration (m_checkTimer (state_of r)) = Some checkEverySeconds
         /\ events_of r = [ev_Logic_fetch_one 0; ev_setExpiration checkEverySeconds])
     /\ (n <> 0%N ->
         m_checkTimer (state_of r) = m_checkTimer s
         /\ events_of r = [ev_Logic_fetch_one n]))
  /\ (forall a sys sys',
        perform a sys = Some sys' ->
        exists new,
          history sys' = history sys ++ new
          /\ existsb arms_timer new = existsb completes_pass new
          /\ (existsb completes_pass new = true
              <-> m_checkSources (manager sys) = true
                  /\ m_checkSources (manager sys') = false)
          /\ (forall d, In (ev_setExpiration d) new -> d = checkEverySeconds)).
Proof.
  split; [|exact step_settles].
  intros s Hflag. unfold fetch_result. unfold checkSources. unfold_M. rewrite Hflag. simpl.
  destruct (Logic_fetch_one _) as [n [[j st] l]] eqn:E. simpl.
  destruct (N.eqb_spec n 0) as [->|Hn]; simpl.
  - repeat split; auto; intros; congruence.
  - rewrite Hflag. repeat split; auto; intros; try congruence; try contradiction.
Qed.

(** C2, amended: [rpcRebuild], [addSource] and [addStaticSource] only
    dispatch one handler; so do [receiveValidation] and [ledgerClosed] when
    [RIPPLE_USE_NEW_VALIDATORS] is on and the manager is not stopping, and
    otherwise they do nothing; [rpcPrint] and [rpcSources] dispatch nothing:
    they call [Logic] on the caller's thread and return what it returns. *)
Theorem producers_enqueue_queries_run_inline :
  (forall args s, enqueues_only (rpcRebuild args) s)
  /\ (forall source s, enqueues_only (addSource source) s)
  /\ (forall source s, enqueues_only (addStaticSource source) s)
  /\ (forall rv s,
        if RIPPLE_USE_NEW_VALIDATORS && negb (stoppable_stopping s)
        then enqueues_only (receiveValidation rv) s
        else receiveValidation rv s = (tt, s, []))
  /\ (forall ledgerHash s,
        if RIPPLE_USE_NEW_VALIDATORS && negb (stoppable_stopping s)
        then enqueues_only (ledgerClosed ledgerHash) s
        else ledgerClosed ledgerHash s = (tt, s, []))
  /\ (forall args s,
        let call := Logic_rpcPrint args (m_journal s, m_store s, m_logic s) in
        rpcPrint args s = (fst call, set_shared (snd call) s, [ev_Logic_rpcPrint args])
        /\ m_queue (state_of (rpcPrint args s)) = m_queue s)
  /\ (forall args s,
        let call := Logic_rpcSources args (m_journal s, m_store s, m_logic s) in
        rpcSources args s = (fst call, set_shared (snd call) s, [ev_Logic_rpcSources args])
        /\ m_queue (state_of (rpcSources args s)) = m_queue s).
Proof.
  unfold enqueues_only. repeat split.
  - intros args s. exists bind_Logic_buildChosen. split; reflexivity.
  - intros source s. exists (bind_Logic_add source). split; reflexivity.
  - intros source s. exists (bind_Logic_addStatic source). split; reflexivity.
  - intros rv s. unfold receiveValidation. unfold_M.
    destruct RIPPLE_USE_NEW_VALIDATORS; simpl; [|reflexivity].
    destruct (stoppable_stopping s); simpl; [reflexivity|].
    exists (bind_Logic_receiveValidation rv). split; reflexivity.
  - intros h s. unfold ledgerClosed. unfold_M.
    destruct RIPPLE_USE_NEW_VALIDATORS; simpl; [|reflexivity].
    destruct (stoppable_stopping s); simpl; [reflexivity|].
    exists (bind_Logic_ledgerClosed h). split; reflexivity.
  - crunch. reflexivity.
  - crunch. reflexivity.
  - crunch. reflexivity.
  - crunch. reflexivity.
Qed.

(** C3, amended: when the open of the database fails, [init] writes the
    fatal line to the journal and skips [Logic::load], and [run] goes on into
    its loop as after a successful open: the first pass runs [checkSources]
    and then invokes the handler at the front of the queue. *)
Theorem failed_open_is_logged_and_run_goes_on s :
  In (ev_store_open db_file true) (events_of (init s)) ->
  let s1 := state_of (init s) in
  last (m_journal s1) = Some (kFatal, "Failed to open '" +:+ db_file +:+ "'")
  /\ events_of (init s) = [ev_store_open db_file true]
  /\ m_logic s1 = m_logic s
  /\ m_queue s1 = m_queue s
  /\ m_checkSources s1 = m_checkSources s
  /\ thread_shouldExit s1 = thread_shouldExit s
  /\ (forall fuel,
        run fuel s
        = (result_of (run_loop fuel s1), state_of (run_loop fuel s1),
           ev_store_open db_file true :: events_of (run_loop fuel s1)))
  /\ (forall fuel h rest,
        thread_shouldExit s = false -> m_queue s = h :: rest ->
        exists es,
          events_of (run (S fuel) s)
          = ev_store_open db_file true :: events_of (checkSources s1) ++ ev_run_handler h :: es).
Proof.
  intros Hfail.
  assert (Hinit : exists j st,
    init s = (tt, set_shared (j ++ [(kFatal, "Failed to open '" +:+ db_file +:+ "'")],
                              st, m_logic s) s, [ev_store_open db_file true])).
  { revert Hfail. unfold init. fold db_file. unfold_M. simpl.
    destruct (StoreSqdb_open _ _) as [e [j st]] eqn:Hopen. simpl.
    destruct e; simpl.
    - intros _. exists j, st. reflexivity.
    - destruct (Logic_load _) as [u [[j' st'] l']]. simpl.
      intros [H|[H|[]]]; discriminate. }
  destruct Hinit as (j & st & Hinit).
  assert (Hrun : forall fuel,
    run fuel s
    = (result_of (run_loop fuel (state_of (init s))), state_of (run_loop fuel (state_of (init s))),
       ev_store_open db_file true :: events_of (run_loop fuel (state_of (init s))))).
  { intros fuel. unfold run. unfold mbind, M_bind, bind. rewrite Hinit. simpl.
    destruct (run_loop fuel _) as [[r s2] es]. reflexivity. }
  simpl. rewrite Hinit. simpl.
  split; [apply last_snoc|].
  do 5 (split; [reflexivity|]).
  split.
  - intros fuel. rewrite (Hrun fuel), Hinit. reflexivity.
  - intros fuel h rest Hexit Hqueue.
    rewrite (Hrun (S fuel)), Hinit. simpl.
    destruct (run_loop_first_pass fuel
                (set_shared (j ++ [(kFatal, "Failed to open '" +:+ db_file +:+ "'")],
                             st, m_logic s) s) h rest Hexit Hqueue) as [es Hes].
    exists es. f_equal. exact Hes.
Qed.

(** C4: rebuild, the additions of Sources, [receiveValidation] and
    [ledgerClosed] leave the check flag as it is, and so do the handlers they
    dispatch when the queue invokes them (the timer's handler raises it); a
    step of the service takes the flag from up to down only when the thread
    runs [checkSources] and [fetch_one] returns 0. *)
Theorem check_flag_survives_operations :
  (forall args s, m_checkSources (state_of (rpcRebuild args s)) = m_checkSources s)
  /\ (forall source s, m_checkSources (state_of (addSource source s)) = m_checkSources s)
  /\ (forall source s, m_checkSources (state_of (addStaticSource source s)) = m_checkSources s)
  /\ (forall name strings s,
        m_checkSources (state_of (addStrings_vector name strings s)) = m_checkSources s)
  /\ (forall file s, m_checkSources (state_of (addFile file s)) = m_checkSources s)
  /\ (forall url s, m_checkSources (state_of (addURL url s)) = m_checkSources s)
  /\ (forall rv s, m_checkSources (state_of (receiveValidation rv s)) = m_checkSources s)
  /\ (forall ledgerHash s,
        m_checkSources (state_of (ledgerClosed ledgerHash s)) = m_checkSources s)
  /\ (forall h s,
        m_checkSources (state_of (invoke h s))
        = match h with
          | bind_ManagerImp_setCheckSources => true
          | _ => m_checkSources s
          end)
  /\ (forall a sys sys',
        perform a sys = Some sys' ->
        m_checkSources (manager sys) = true ->
        m_checkSources (manager sys') = false ->
        a = act_thread
        /\ thread_at sys = thread_at_loop_test
        /\ history sys'
           = history sys ++ [ev_Logic_fetch_one 0; ev_setExpiration checkEverySeconds]).
Proof.
  split; [intros; reflexivity|].
  split; [intros; reflexivity|].
  split; [intros; reflexivity|].
  split; [intros; reflexivity|].
  split; [intros; reflexivity|].
  split; [intros; reflexivity|].
  split; [intros; crunch; reflexivity|].
  split; [intros; crunch; reflexivity|].
  split; [intros h s; destruct h; crunch; reflexivity|].
  exact flag_cleared_only_by_pass.
Qed.


(** C9: [rpcRebuild] dispatches the [Logic::buildChosen] handler to the back
    of the queue and returns the object [chosen_list = rebuilding]; it
    makes no other call and leaves [m_logic] as it was.  The rebuild happens
    when the queue invokes the handler. *)
Theorem rpcRebuild_schedules (args : Json.Value) s :
  let r := rpcRebuild args s in
  result_of r = Json.objectValue [("chosen_list", Json.stringValue "rebuilding")]
  /\ events_of r = [ev_dispatch bind_Logic_buildChosen]
  /\ state_of r = set_queue (m_queue s ++ [bind_Logic_buildChosen]) s
  /\ m_logic (state_of r) = m_logic s
  /\ (forall s',
        state_of (invoke bind_Logic_buildChosen s')
        = set_shared (snd (Logic_buildChosen (m_journal s', m_store s', m_logic s'))) s').
Proof.
  simpl. repeat split. intros s'. crunch. reflexivity.
Qed.

(** ** Further properties of the member functions *)

Ltac projections :=
  repeat first
    [ progress change (events_of (?a, ?b, ?c)) with c
    | progress change (state_of (?a, ?b, ?c)) with b
    | progress change (result_of (?a, ?b, ?c)) with a ].

Lemma invoke_effects h s :
  m_queue (state_of (invoke h s)) = m_queue s
  /\ m_checkTimer (state_of (invoke h s)) = m_checkTimer s
  /\ m_checkSources (state_of (invoke h s)) = m_checkSources s || is_check_signal h
  /\ thread_shouldExit (state_of (invoke h s)) = thread_shouldExit s || is_exit_signal h
  /\ thread_running (state_of (invoke h s)) = thread_running s
  /\ stoppable_stopping (state_of (invoke h s)) = stoppable_stopping s
  /\ stoppable_stopped (state_of (invoke h s)) = stoppable_stopped s
  /\ events_of (invoke h s) = [].
Proof.
  destruct h; crunch; rewrite ?orb_false_r, ?orb_true_r; auto 10.
Qed.

Lemma checkSources_effects s :
  m_queue (state_of (checkSources s)) = m_queue s
  /\ thread_shouldExit (state_of (checkSources s)) = thread_shouldExit s
  /\ thread_running (state_of (checkSources s)) = thread_running s
  /\ stoppable_stopping (state_of (checkSources s)) = stoppable_stopping s
  /\ stoppable_stopped (state_of (checkSources s)) = stoppable_stopped s
  /\ handlers_run (events_of (checkSources s)) = []
  /\ dispatched (events_of (checkSources s)) = []
  /\ opens (events_of (checkSources s)) = 0%nat
  /\ loads (events_of (checkSources s)) = 0%nat
  /\ stops (events_of (checkSources s)) = 0%nat.
Proof. crunch; auto 12. Qed.

(** One pass of the loop of [run], unrolled. *)
Lemma run_loop_pass fuel s :
  thread_shouldExit s = false ->
  run_loop (S fuel) s
  = match m_queue s with
    | [] => (run_waiting, state_of (checkSources s), events_of (checkSources s))
    | h :: rest =>
        let s2 := state_of (invoke h (set_queue rest (state_of (checkSources s)))) in
        (result_of (run_loop fuel s2), state_of (run_loop fuel s2),
         events_of (checkSources s) ++ ev_run_handler h :: events_of (run_loop fuel s2))
    end.
Proof.
  intros Hexit.
  destruct (checkSources_effects s) as (Hq & _).
  simpl. unfold threadShouldExit. unfold_M. rewrite Hexit. simpl.
  destruct (checkSources s) as [[u s1] es1]. simpl in *.
  unfold run_one. rewrite Hq.
  destruct (m_queue s) as [|h rest]; simpl.
  - rewrite app_nil_r. reflexivity.
  - destruct (invoke_effects h (set_queue rest s1)) as (_ & _ & _ & _ & _ & _ & _ & He).
    destruct (invoke h (set_queue rest s1)) as [[u2 s2] es2]. simpl in *. subst es2.
    destruct (run_loop fuel s2) as [[st s3] es3]. reflexivity.
Qed.

Lemma run_loop_leaves fuel s :
  thread_shouldExit s = true ->
  run_loop (S fuel) s = (run_returned, set_stopped true s, [ev_stopped]).
Proof.
  intros Hexit. simpl. unfold threadShouldExit, stopped. unfold_M. rewrite Hexit. reflexivity.
Qed.

Lemma handlers_run_cons_run h es :
  handlers_run (ev_run_handler h :: es) = h :: handlers_run es.
Proof. reflexivity. Qed.


Lemma run_loop_exits q1 : forall q2 s fuel,
  thread_shouldExit s = false ->
  m_queue s = q1 ++ bind_Thread_signalThreadShouldExit :: q2 ->
  existsb is_exit_signal q1 = false ->
  (length q1 + 2 <= fuel)%nat ->
  result_of (run_loop fuel s) = run_returned
  /\ handlers_run (events_of (run_loop fuel s)) = q1 ++ [bind_Thread_signalThreadShouldExit]
  /\ m_queue (state_of (run_loop fuel s)) = q2
  /\ stoppable_stopped (state_of (run_loop fuel s)) = true
  /\ stops (events_of (run_loop fuel s)) = 1%nat
  /\ (exists pre, events_of (run_loop fuel s) = pre ++ [ev_stopped]).
Proof.
  induction q1 as [|h q1 IH]; intros q2 s fuel Hexit Hqueue Hnone Hfuel.
  - destruct fuel as [|[|fuel]]; simpl in Hfuel; try lia.
    rewrite (run_loop_pass _ s Hexit), Hqueue. simpl app. cbv iota zeta.
    destruct (checkSources_effects s) as (_ & Hx & _ & _ & _ & Hh & _ & _ & _ & Hs).
    set (s1 := set_queue q2 (state_of (checkSources s))).
    destruct (invoke_effects bind_Thread_signalThreadShouldExit s1)
      as (Hq2 & _ & _ & Hx2 & _).
    rewrite run_loop_leaves by (rewrite Hx2; apply orb_true_r).
    projections.
    rewrite handlers_run_app, Hh.
    split; [reflexivity|]. split; [reflexivity|]. split; [exact Hq2|].
    split; [reflexivity|]. split.
    + unfold stops in *. rewrite List.filter_app, length_app, Hs. reflexivity.
    + exists (events_of (checkSources s)
              ++ [ev_run_handler bind_Thread_signalThreadShouldExit]).
      rewrite <- app_assoc. reflexivity.
  - destruct fuel as [|fuel]; simpl in Hfuel; try lia.
    simpl in Hnone. apply orb_false_elim in Hnone as [Hh1 Hrest].
    rewrite (run_loop_pass _ s Hexit), Hqueue. simpl app. cbv iota zeta.
    destruct (checkSources_effects s) as (_ & Hx & _ & _ & _ & Hh & _ & _ & _ & Hs).
    set (s1 := set_queue (q1 ++ bind_Thread_signalThreadShouldExit :: q2)
                 (state_of (checkSources s))).
    destruct (invoke_effects h s1) as (Hq2 & _ & _ & Hx2 & _).
    assert (Hexit2 : thread_shouldExit (state_of (invoke h s1)) = false).
    { rewrite Hx2, Hh1. subst s1. simpl. rewrite Hx, Hexit. reflexivity. }
    destruct (IH q2 (state_of (invoke h s1)) fuel Hexit2 Hq2 Hrest ltac:(lia))
      as (IHr & IHh & IHq & IHd & IHs & pre & IHe).
    projections.
    rewrite handlers_run_app, Hh, handlers_run_cons_run, IHh.
    split; [exact IHr|]. split; [reflexivity|]. split; [exact IHq|].
    split; [exact IHd|]. split.
    + unfold stops in *. rewrite List.filter_app, length_app, Hs. simpl. exact IHs.
    + exists (events_of (checkSources s) ++ ev_run_handler h :: pre).
      rewrite IHe, <- app_assoc. reflexivity.
Qed.

Lemma onStop_effects journal s :
  result_of (onStop journal s) = journal ++ [(kInfo, "Stopping Validators")]
  /\ (if thread_running s
      then state_of (onStop journal s)
           = set_queue (m_queue s ++ [bind_Thread_signalThreadShouldExit]) s
           /\ events_of (onStop journal s) = [ev_dispatch bind_Thread_signalThreadShouldExit]
      else state_of (onStop journal s) = set_stopped true s
           /\ events_of (onStop journal s) = [ev_stopped]).
Proof. crunch; auto. Qed.

(** X2: [onStop] on a running thread dispatches the exit signal and does not
    call [stopped]; the loop of [run] then invokes the handlers queued ahead
    of the signal, in order, and the signal, leaves, and calls [stopped]
    once, as its last action.  With no thread running [onStop] calls
    [stopped] itself and queues nothing. *)
Theorem onStop_then_run_returns (journal : Journal) s fuel :
  thread_shouldExit s = false ->
  existsb is_exit_signal (m_queue s) = false ->
  (length (m_queue s) + 2 <= fuel)%nat ->
  let s1 := state_of (onStop journal s) in
  if thread_running s then
    stoppable_stopped s1 = stoppable_stopped s
    /\ result_of (run_loop fuel s1) = run_returned
    /\ handlers_run (events_of (run_loop fuel s1))
       = m_queue s ++ [bind_Thread_signalThreadShouldExit]
    /\ m_queue (state_of (run_loop fuel s1)) = []
    /\ stoppable_stopped (state_of (run_loop fuel s1)) = true
    /\ stops (events_of (run_loop fuel s1)) = 1%nat
    /\ (exists pre, events_of (run_loop fuel s1) = pre ++ [ev_stopped])
  else
    stoppable_stopped s1 = true
    /\ m_queue s1 = m_queue s
    /\ events_of (onStop journal s) = [ev_stopped].
Proof.
  intros Hexit Hnone Hfuel. cbv zeta.
  destruct (onStop_effects journal s) as [_ Heff].
  destruct (thread_running s).
  - destruct Heff as [-> _].
    split; [reflexivity|].
    apply (run_loop_exits (m_queue s) []); auto.
  - destruct Heff as [-> Hev]. auto.
Qed.

(** X3: a rebuild requested after the stop request is acknowledged, and its
    handler joins the queue behind the exit signal; the loop of [run] leaves
    without ever invoking it. *)
Theorem rebuild_after_stop_is_never_run (journal : Journal) (args : Json.Value) s fuel :
  thread_running s = true ->
  thread_shouldExit s = false ->
  existsb is_exit_signal (m_queue s) = false ->
  (length (m_queue s) + 2 <= fuel)%nat ->
  let s1 := state_of (Stoppable_stop journal s) in
  let r2 := rpcRebuild args s1 in
  let r3 := run_loop fuel (state_of r2) in
  result_of r2 = Json.objectValue [("chosen_list", Json.stringValue "rebuilding")]
  /\ m_queue (state_of r2)
     = m_queue s ++ [bind_Thread_signalThreadShouldExit; bind_Logic_buildChosen]
  /\ result_of r3 = run_returned
  /\ handlers_run (events_of r3) = m_queue s ++ [bind_Thread_signalThreadShouldExit]
  /\ m_queue (state_of r3) = [bind_Logic_buildChosen].
Proof.
  intros Hrun Hexit Hnone Hfuel. cbv zeta.
  assert (Hs1 : state_of (Stoppable_stop journal s)
                = set_queue (m_queue s ++ [bind_Thread_signalThreadShouldExit])
                    (set_stopping true s)).
  { unfold Stoppable_stop, onStop. unfold_M. simpl. rewrite Hrun. reflexivity. }
  rewrite Hs1.
  set (s2 := state_of (rpcRebuild args _)).
  assert (Hq : m_queue s2
               = m_queue s ++ bind_Thread_signalThreadShouldExit :: [bind_Logic_buildChosen]).
  { subst s2. simpl. rewrite <- app_assoc. reflexivity. }
  split; [reflexivity|]. split; [exact Hq|].
  destruct (run_loop_exits (m_queue s) [bind_Logic_buildChosen] s2 fuel)
    as (Hr & Hh & Hq3 & _); auto.
Qed.

Lemma pulls_cons_run h es : pulls (ev_run_handler h :: es) = pulls es.
Proof. reflexivity. Qed.

(** X4: between passes the loop of [run] fetches nothing: with the check
    flag down and no timer signal in the queue, any number of passes makes no
    call of [fetch_one] and leaves the flag down. *)
Theorem idle_loop_never_fetches fuel : forall s,
  m_checkSources s = false ->
  existsb is_check_signal (m_queue s) = false ->
  pulls (events_of (run_loop fuel s)) = 0%nat
  /\ m_checkSources (state_of (run_loop fuel s)) = false.
Proof.
  induction fuel as [|fuel IH]; intros s Hflag Hnone; [auto|].
  destruct (thread_shouldExit s) eqn:Hexit.
  - rewrite (run_loop_leaves fuel s Hexit). auto.
  - rewrite (run_loop_pass fuel s Hexit), (checkSources_idle s Hflag).
    projections.
    destruct (m_queue s) as [|h rest] eqn:Hqueue; [auto|].
    simpl in Hnone. apply orb_false_elim in Hnone as [Hh Hrest].
    cbv zeta.
    projections.
    destruct (invoke_effects h (set_queue rest s)) as (Hq2 & _ & Hf2 & _).
    destruct (IH (state_of (invoke h (set_queue rest s)))) as [IHp IHf].
    + rewrite Hf2, Hh. simpl. rewrite Hflag. reflexivity.
    + rewrite Hq2. exact Hrest.
    + simpl app. rewrite pulls_cons_run. auto.
Qed.

Lemma onDeadlineTimer_effects timer s :
  if TimerRef_eqb timer (timer_ref (m_checkTimer s))
  then state_of (onDeadlineTimer timer s)
       = set_queue (m_queue s ++ [bind_ManagerImp_setCheckSources])
           (set_shared (m_journal s ++ [(kTrace, "Check timer signaled")],
                        m_store s, m_logic s) s)
       /\ events_of (onDeadlineTimer timer s) = [ev_dispatch bind_ManagerImp_setCheckSources]
  else onDeadlineTimer timer s = (tt, s, []).
Proof. crunch; auto. Qed.

Lemma run_loop_0 s : run_loop 0 s = (run_in_loop, s, []).
Proof. reflexivity. Qed.

Lemma run_loop_raises q : forall s,
  thread_shouldExit s = false ->
  m_checkSources s = false ->
  m_queue s = q ++ [bind_ManagerImp_setCheckSources] ->
  existsb is_exit_signal q = false ->
  existsb is_check_signal q = false ->
  pulls (events_of (run_loop (length q + 1) s)) = 0%nat
  /\ handlers_run (events_of (run_loop (length q + 1) s))
     = q ++ [bind_ManagerImp_setCheckSources]
  /\ m_checkSources (state_of (run_loop (length q + 1) s)) = true
  /\ thread_shouldExit (state_of (run_loop (length q + 1) s)) = false
  /\ m_queue (state_of (run_loop (length q + 1) s)) = [].
Proof.
  induction q as [|h q IH]; intros s Hexit Hflag Hqueue Hne Hnc.
  - simpl length. simpl Nat.add.
    rewrite (run_loop_pass 0 s Hexit), (checkSources_idle s Hflag), Hqueue.
    simpl app. cbv iota zeta.
    projections.
    destruct (invoke_effects bind_ManagerImp_setCheckSources (set_queue [] s))
      as (Hq2 & _ & Hf2 & Hx2 & _).
    rewrite run_loop_0.
    projections.
    rewrite Hq2, Hf2, Hx2. simpl. rewrite Hexit, orb_true_r. auto.
  - simpl length. simpl Nat.add.
    simpl in Hne, Hnc.
    apply orb_false_elim in Hne as [Hhe Hne]. apply orb_false_elim in Hnc as [Hhc Hnc].
    rewrite (run_loop_pass _ s Hexit), (checkSources_idle s Hflag), Hqueue.
    simpl app. cbv iota zeta.
    projections.
    set (s1 := set_queue (q ++ [bind_ManagerImp_setCheckSources]) s).
    destruct (invoke_effects h s1) as (Hq2 & _ & Hf2 & Hx2 & _).
    destruct (IH (state_of (invoke h s1))) as (IHp & IHh & IHf & IHx & IHq); auto.
    + rewrite Hx2, Hhe. subst s1. simpl. rewrite Hexit. reflexivity.
    + rewrite Hf2, Hhc. subst s1. simpl. rewrite Hflag. reflexivity.
    + rewrite pulls_cons_run, handlers_run_cons_run, IHh. auto.
Qed.

(** X5: a notification about another timer changes nothing.  The check
    timer's notification only dispatches [setCheckSources]: the flag stays
    down while the handlers queued ahead of it are invoked, without any call
    of [fetch_one]; it is up after the signal's own turn, and the pass after
    that calls [fetch_one]. *)
Theorem timer_signal_takes_effect_at_its_turn s :
  thread_shouldExit s = false ->
  m_checkSources s = false ->
  existsb is_exit_signal (m_queue s) = false ->
  existsb is_check_signal (m_queue s) = false ->
  (forall timer,
     TimerRef_eqb timer (timer_ref (m_checkTimer s)) = false ->
     onDeadlineTimer timer s = (tt, s, []))
  /\ let s1 := state_of (onDeadlineTimer (timer_ref (m_checkTimer s)) s) in
     let r := run_loop (length (m_queue s) + 1) s1 in
     m_checkSources s1 = false
     /\ m_queue s1 = m_queue s ++ [bind_ManagerImp_setCheckSources]
     /\ pulls (events_of r) = 0%nat
     /\ handlers_run (events_of r) = m_queue s ++ [bind_ManagerImp_setCheckSources]
     /\ m_checkSources (state_of r) = true
     /\ pulls (events_of (run_loop 1 (state_of r))) = 1%nat.
Proof.
  intros Hexit Hflag Hne Hnc. split.
  - intros timer Hother. pose proof (onDeadlineTimer_effects timer s) as Heff.
    rewrite Hother in Heff. exact Heff.
  - pose proof (onDeadlineTimer_effects (timer_ref (m_checkTimer s)) s) as Heff.
    assert (Hself : TimerRef_eqb (timer_ref (m_checkTimer s)) (timer_ref (m_checkTimer s))
                    = true).
    { destruct (timer_ref (m_checkTimer s)); simpl; [reflexivity|apply Nat.eqb_refl]. }
    rewrite Hself in Heff. destruct Heff as [Hs1 _]. cbv zeta. rewrite Hs1.
    set (s1 := set_queue _ _).
    destruct (run_loop_raises (m_queue s) s1) as (Hp & Hh & Hf & Hx & Hq); auto.
    split; [exact Hflag|]. split; [reflexivity|]. split; [exact Hp|].
    split; [exact Hh|]. split; [exact Hf|].
    set (s2 := state_of (run_loop (length (m_queue s) + 1) s1)) in *.
    rewrite (run_loop_pass 0 s2 Hx), Hq.
    projections.
    rewrite checkSources_pulls, Hf. reflexivity.
Qed.

(** ** Further properties of the running service *)

Lemma enter_effects e s :
  handlers_run (events_of (enter e s)) = []
  /\ m_queue (state_of (enter e s)) = m_queue s ++ dispatched (events_of (enter e s))
  /\ m_checkSources (state_of (enter e s)) = m_checkSources s
  /\ m_checkTimer (state_of (enter e s)) = m_checkTimer s
  /\ stoppable_stopping (state_of (enter e s)) = stoppable_stopping s
  /\ (stoppable_stopping s = true ->
      existsb dispatches_ingress (events_of (enter e s)) = false).
Proof.
  destruct e; crunch; rewrite ?app_nil_r; repeat split; auto; intros; try congruence;
    match goal with
    | Hn : negb (stoppable_stopping ?s) = true, Hs : stoppable_stopping ?s = true |- _ =>
        rewrite Hs in Hn; discriminate Hn
    end.
Qed.

Lemma stop_effects journal s :
  handlers_run (events_of (Stoppable_stop journal s)) = []
  /\ m_queue (state_of (Stoppable_stop journal s))
     = m_queue s ++ dispatched (events_of (Stoppable_stop journal s))
  /\ m_checkSources (state_of (Stoppable_stop journal s)) = m_checkSources s
  /\ m_checkTimer (state_of (Stoppable_stop journal s)) = m_checkTimer s
  /\ stoppable_stopping (state_of (Stoppable_stop journal s)) = true
  /\ existsb dispatches_ingress (events_of (Stoppable_stop journal s)) = false.
Proof. crunch; rewrite ?app_nil_r; auto 10. Qed.

Lemma init_effects s :
  handlers_run (events_of (init s)) = []
  /\ dispatched (events_of (init s)) = []
  /\ m_queue (state_of (init s)) = m_queue s
  /\ m_checkSources (state_of (init s)) = m_checkSources s
  /\ m_checkTimer (state_of (init s)) = m_checkTimer s
  /\ stoppable_stopping (state_of (init s)) = stoppable_stopping s
  /\ existsb dispatches_ingress (events_of (init s)) = false.
Proof. crunch; auto 10. Qed.

Lemma checkSources_settling s :
  timer_ref (m_checkTimer (state_of (checkSources s))) = timer_ref (m_checkTimer s)
  /\ existsb dispatches_ingress (events_of (checkSources s)) = false
  /\ ((m_checkSources (state_of (checkSources s)) = m_checkSources s
       /\ m_checkTimer (state_of (checkSources s)) = m_checkTimer s)
      \/ (m_checkSources s = true
          /\ m_checkSources (state_of (checkSources s)) = false
          /\ expiration (m_checkTimer (state_of (checkSources s))) = Some checkEverySeconds)).
Proof. crunch; auto 10. Qed.

(** What a step of the service does to the queue, the check flag, the check
    timer and the stopping flag: it appends what it dispatches; or it is the
    check timer's expiration, which also disarms the timer; or the thread's
    [checkSources]; or the thread's [run_one], which takes the front
    handler. *)
Lemma step_summary a sys sys' :
  perform a sys = Some sys' ->
  exists new,
    history sys' = history sys ++ new
    /\ existsb dispatches_ingress new
       = existsb dispatches_ingress new && negb (stoppable_stopping (manager sys))
    /\ (stoppable_stopping (manager sys) = true -> stoppable_stopping (manager sys') = true)
    /\ timer_ref (m_checkTimer (manager sys')) = timer_ref (m_checkTimer (manager sys))
    /\ ((handlers_run new = []
         /\ m_queue (manager sys') = m_queue (manager sys) ++ dispatched new
         /\ m_checkSources (manager sys') = m_checkSources (manager sys)
         /\ m_checkTimer (manager sys') = m_checkTimer (manager sys))
        \/ (handlers_run new = []
            /\ m_queue (manager sys') = m_queue (manager sys) ++ dispatched new
            /\ m_checkSources (manager sys') = m_checkSources (manager sys)
            /\ expiration (m_checkTimer (manager sys')) = None
            /\ (timer_ref (m_checkTimer (manager sys)) = the_checkTimer ->
                dispatched new = [bind_ManagerImp_setCheckSources]))
        \/ (handlers_run new = [] /\ dispatched new = []
            /\ m_queue (manager sys') = m_queue (manager sys)
            /\ m_checkSources (manager sys) = true
            /\ m_checkSources (manager sys') = false
            /\ expiration (m_checkTimer (manager sys')) = Some checkEverySeconds)
        \/ (exists h,
              m_queue (manager sys) = h :: m_queue (manager sys')
              /\ handlers_run new = [h] /\ dispatched new = []
              /\ m_checkSources (manager sys')
                 = m_checkSources (manager sys) || is_check_signal h
              /\ m_checkTimer (manager sys') = m_checkTimer (manager sys))).
Proof.
  intros Hstep.
  assert (Hing : forall es b, existsb dispatches_ingress es = false ->
                 existsb dispatches_ingress es = existsb dispatches_ingress es && b).
  { intros es b ->. reflexivity. }
  destruct a as [e|journal|timer|]; simpl in Hstep.
  - inversion Hstep as [Heq]; clear Hstep Heq.
    destruct (enter_effects e (manager sys)) as (Hh & Hq & Hf & Ht & Hs & Hi).
    exists (events_of (enter e (manager sys))). simpl.
    split; [reflexivity|]. split.
    { destruct (stoppable_stopping (manager sys)).
      - rewrite (Hi eq_refl). reflexivity.
      - rewrite andb_true_r. reflexivity. }
    split; [congruence|]. split; [congruence|]. left. auto.
  - inversion Hstep as [Heq]; clear Hstep Heq.
    destruct (stop_effects journal (manager sys)) as (Hh & Hq & Hf & Ht & Hs & Hi).
    exists (events_of (Stoppable_stop journal (manager sys))). simpl.
    split; [reflexivity|]. split; [apply Hing, Hi|].
    split; [auto|]. split; [congruence|]. left. auto.
  - destruct timer as [|n].
    + destruct (expiration (m_checkTimer (manager sys))) eqn:Hexp; [|discriminate].
      inversion Hstep as [Heq]; clear Hstep Heq.
      pose proof (onDeadlineTimer_effects the_checkTimer (disarm (manager sys))) as Heff.
      exists (events_of (onDeadlineTimer the_checkTimer (disarm (manager sys)))). simpl.
      split; [reflexivity|].
      change (timer_ref (m_checkTimer (disarm (manager sys))))
        with (timer_ref (m_checkTimer (manager sys))) in Heff.
      destruct (TimerRef_eqb the_checkTimer (timer_ref (m_checkTimer (manager sys)))) eqn:Hmine.
      * destruct Heff as [-> ->]. simpl.
        split; [reflexivity|]. split; [auto|]. split; [reflexivity|].
        right. left. auto 10.
      * rewrite Heff. simpl.
        split; [reflexivity|]. split; [auto|]. split; [reflexivity|].
        right. left. rewrite app_nil_r. repeat split; auto.
        intros Href. rewrite Href in Hmine. discriminate Hmine.
    + inversion Hstep as [Heq]; clear Hstep Heq.
      pose proof (onDeadlineTimer_effects (other_timer n) (manager sys)) as Heff.
      exists (events_of (onDeadlineTimer (other_timer n) (manager sys))). simpl.
      split; [reflexivity|].
      destruct (TimerRef_eqb (other_timer n) (timer_ref (m_checkTimer (manager sys)))).
      * destruct Heff as [-> ->]. simpl.
        split; [reflexivity|]. split; [auto|]. split; [reflexivity|]. left. auto.
      * rewrite Heff. simpl.
        split; [reflexivity|]. split; [auto|]. split; [reflexivity|].
        left. rewrite app_nil_r. auto.
  - destruct (thread_at sys).
    + destruct (thread_running (manager sys)); [|discriminate].
      inversion Hstep as [Heq]; clear Hstep Heq.
      destruct (init_effects (manager sys)) as (Hh & Hd & Hq & Hf & Ht & Hs & Hi).
      exists (events_of (init (manager sys))). simpl.
      split; [reflexivity|]. split; [apply Hing, Hi|].
      split; [congruence|]. split; [congruence|].
      left. rewrite Hd, app_nil_r. auto.
    + destruct (thread_shouldExit (manager sys)).
      * inversion Hstep as [Heq]; clear Hstep Heq.
        exists [ev_stopped]. simpl.
        split; [reflexivity|]. split; [reflexivity|]. split; [auto|]. split; [reflexivity|].
        left. rewrite app_nil_r. auto.
      * inversion Hstep as [Heq]; clear Hstep Heq.
        destruct (checkSources_effects (manager sys))
          as (Hq & _ & _ & Hs & _ & Hh & Hd & _).
        destruct (checkSources_settling (manager sys)) as (Href & Hi & Hcase).
        exists (events_of (checkSources (manager sys))). simpl.
        split; [reflexivity|]. split; [apply Hing, Hi|].
        split; [congruence|]. split; [exact Href|].
        destruct Hcase as [[Hf Ht]|(Hup & Hdown & Harm)].
        -- left. rewrite Hd, app_nil_r. auto.
        -- right. right. left. auto 10.
    + destruct (m_queue (manager sys)) as [|h rest] eqn:Hqueue; [discriminate|].
      inversion Hstep as [Heq]; clear Hstep Heq.
      destruct (invoke_effects h (set_queue rest (manager sys)))
        as (Hq & Ht & Hf & _ & _ & Hs & _ & He).
      unfold run_one. rewrite Hqueue.
      destruct (invoke h (set_queue rest (manager sys))) as [[u s2] es2].
      unfold state_of, events_of in *. simpl in *. subst es2.
      exists [ev_run_handler h]. unfold state_of. simpl.
      split; [reflexivity|]. split; [reflexivity|]. split; [congruence|].
      split; [congruence|].
      right. right. right. exists h. rewrite Hq. auto 10.
    + discriminate.
Qed.

Lemma perform_all_invariant (P : System -> Prop) :
  (forall a sys sys', perform a sys = Some sys' -> P sys -> P sys') ->
  forall acts sys sys', perform_all acts sys = Some sys' -> P sys -> P sys'.
Proof.
  intros Hstep acts. induction acts as [|a acts IH]; simpl; intros sys sys' H HP.
  - injection H as <-. exact HP.
  - destruct (perform a sys) as [sys1|] eqn:Ha; [|discriminate].
    eapply IH; [exact H|]. eapply Hstep; eauto.
Qed.



(** X7: the check timer is only ever armed with [checkEverySeconds]: in
    every state the service reaches after construction its expiration is
    either not pending or the configured interval. *)
Theorem timer_keeps_the_interval (journal : Journal)
    (acts : list (@Action ReceivedValidation RippleLedgerHash)) sys :
  perform_all acts (boot journal) = Some sys ->
  interval_kept (manager sys).
Proof.
  intros Hrun.
  apply (perform_all_invariant (fun sys => interval_kept (manager sys)))
    with (acts := acts) (sys := boot journal); [|exact Hrun|left; reflexivity].
  clear. intros a sys sys' Hstep Hinv. unfold interval_kept in *.
  destruct (step_summary a sys sys' Hstep) as (new & _ & _ & _ & _ & Hcase).
  destruct Hcase as [(_ & _ & _ & Ht)|[(_ & _ & _ & Ht & _)|[(_ & _ & _ & _ & _ & Ht)|(h & _ & _ & _ & _ & Ht)]]].
  - rewrite Ht. exact Hinv.
  - left. exact Ht.
  - right. exact Ht.
  - rewrite Ht. exact Hinv.
Qed.

Lemma existsb_check_app (q1 q2 : list (@Handler ReceivedValidation RippleLedgerHash)) :
  existsb is_check_signal q1 = true -> existsb is_check_signal (q1 ++ q2) = true.
Proof. intros H. rewrite existsb_app, H. reflexivity. Qed.

(** X8: periodic checking is never lost: in every state the service reaches
    after construction, the check flag is up, or the check timer is armed,
    or the timer's [setCheckSources] handler waits in the queue. *)
Theorem next_check_is_always_pending (journal : Journal)
    (acts : list (@Action ReceivedValidation RippleLedgerHash)) sys :
  perform_all acts (boot journal) = Some sys ->
  check_pending (manager sys).
Proof.
  intros Hrun.
  apply (perform_all_invariant
           (fun sys => timer_ref (m_checkTimer (manager sys)) = the_checkTimer
                       /\ check_pending (manager sys)))
    with (acts := acts) (sys := boot journal);
    [|exact Hrun|split; [reflexivity|left; reflexivity]].
  clear. intros a sys sys' Hstep [Href Hinv]. unfold check_pending in *.
  destruct (step_summary a sys sys' Hstep) as (new & _ & _ & _ & Href' & Hcase).
  split; [congruence|].
  destruct Hcase as [(_ & Hq & Hf & Ht)|[(_ & Hq & Hf & _ & Hd)|[(_ & _ & _ & _ & _ & Ht)|(h & Hq & _ & _ & Hf & Ht)]]].
  - rewrite Hq, Hf, Ht. destruct Hinv as [H|[H|H]]; auto using existsb_check_app.
  - rewrite Hq, Hf, (Hd Href). right. right.
    rewrite existsb_app. simpl. apply orb_true_r.
  - right. left. rewrite Ht. discriminate.
  - rewrite Hf, Ht. destruct Hinv as [H|[H|H]].
    + left. rewrite H. reflexivity.
    + auto.
    + rewrite Hq in H. simpl in H. apply orb_true_iff in H as [H|H].
      * left. rewrite H. apply orb_true_r.
      * auto.
Qed.

Lemma stopping_blocks_ingress acts : forall sys sys',
  perform_all acts sys = Some sys' ->
  stoppable_stopping (manager sys) = true ->
  stoppable_stopping (manager sys') = true
  /\ exists new, history sys' = history sys ++ new
                 /\ existsb dispatches_ingress new = false.
Proof.
  induction acts as [|a acts IH]; simpl; intros sys sys' Hrun Hstop.
  - injection Hrun as <-. split; [exact Hstop|]. exists []. rewrite app_nil_r. auto.
  - destruct (perform a sys) as [sys1|] eqn:Hstep; [|discriminate].
    destruct (step_summary a sys sys1 Hstep) as (new1 & Hh1 & Hi1 & Hs1 & _).
    rewrite Hstop, andb_false_r in Hi1.
    destruct (IH sys1 sys' Hrun (Hs1 Hstop)) as (Hs' & new2 & Hh2 & Hi2).
    split; [exact Hs'|]. exists (new1 ++ new2).
    rewrite Hh2, Hh1, <- app_assoc, existsb_app, Hi1, Hi2. auto.
Qed.

(** X9: once stop is requested no validation and no ledger close is accepted
    any more: whatever the service does afterwards, no
    [Logic::receiveValidation] and no [Logic::ledgerClosed] handler is
    dispatched, and the stopping flag stays up. *)
Theorem no_ingress_after_stop (journal : Journal)
    (acts : list (@Action ReceivedValidation RippleLedgerHash)) sys sys' :
  perform_all (act_stop journal :: acts) sys = Some sys' ->
  stoppable_stopping (manager sys') = true
  /\ exists new, history sys' = history sys ++ new
                 /\ existsb dispatches_ingress new = false.
Proof.
  simpl. intros Hrun.
  destruct (stop_effects journal (manager sys)) as (_ & _ & _ & _ & Hs & Hi).
  set (sys1 := after sys (thread_at sys) (Stoppable_stop journal (manager sys))) in *.
  destruct (stopping_blocks_ingress acts sys1 sys' Hrun Hs) as (Hs' & new & Hh & Hn).
  split; [exact Hs'|].
  exists (events_of (Stoppable_stop journal (manager sys)) ++ new).
  rewrite Hh, existsb_app, Hi, Hn. subst sys1. simpl. rewrite <- app_assoc. auto.
Qed.

Lemma run_loop_never_opens fuel : forall s,
  opens (events_of (run_loop fuel s)) = 0%nat
  /\ loads (events_of (run_loop fuel s)) = 0%nat.
Proof.
  induction fuel as [|fuel IH]; intros s; [auto|].
  destruct (thread_shouldExit s) eqn:Hexit.
  - rewrite (run_loop_leaves fuel s Hexit). auto.
  - rewrite (run_loop_pass fuel s Hexit).
    destruct (checkSources_effects s) as (_ & _ & _ & _ & _ & _ & _ & Ho & Hl & _).
    destruct (m_queue s) as [|h rest]; projections; [auto|].
    cbv zeta. projections.
    destruct (IH (state_of (invoke h (set_queue rest (state_of (checkSources s))))))
      as [IHo IHl].
    unfold opens, loads in *. rewrite !List.filter_app, !length_app, Ho, Hl. simpl. auto.
Qed.

(** X10: [run] opens the store once, first of all; it calls [Logic::load]
    right after the open when the open succeeded and never when it failed;
    the loop itself neither opens nor loads. *)
Theorem run_opens_once_and_loads_after s fuel :
  events_of (run fuel s)
  = ev_store_open db_file (open_error s)
    :: (if open_error s then [] else [ev_Logic_load])
    ++ events_of (run_loop fuel (state_of (init s)))
  /\ opens (events_of (run fuel s)) = 1%nat
  /\ loads (events_of (run fuel s)) = (if open_error s then 0 else 1)%nat.
Proof.
  assert (Hinit : events_of (init s)
                  = ev_store_open db_file (open_error s)
                    :: (if open_error s then [] else [ev_Logic_load])).
  { unfold open_error.
    replace (m_journal s ++ [(kTrace, "Initializing");
                             (kTrace, "Opening database at '" +:+ db_file +:+ "'")])
      with ((m_journal s ++ [(kTrace, "Initializing")])
            ++ [(kTrace, "Opening database at '" +:+ db_file +:+ "'")])
      by (rewrite <- app_assoc; reflexivity).
    unfold init. fold db_file. unfold_M. simpl.
    destruct (StoreSqdb_open _ _) as [e [j st]]. simpl.
    destruct e; simpl; [reflexivity|].
    destruct (Logic_load _) as [u [[j' st'] l']]. reflexivity. }
  assert (Hrun : events_of (run fuel s)
                 = events_of (init s) ++ events_of (run_loop fuel (state_of (init s)))).
  { unfold run. unfold mbind, M_bind, bind.
    destruct (init s) as [[u s1] es1]. projections.
    destruct (run_loop fuel s1) as [[r s2] es2]. reflexivity. }
  destruct (run_loop_never_opens fuel (state_of (init s))) as [Ho Hl].
  rewrite Hrun, Hinit. split; [reflexivity|].
  unfold opens, loads in *.
  rewrite !List.filter_app, !length_app, Ho, Hl.
  destruct (open_error s); auto.
Qed.

Lemma copy_loop (strings acc : list string) :
  fold_left (fun arr str => arr ++ [str]) strings acc = acc ++ strings.
Proof.
  revert acc. induction strings as [|x strings IH]; intros acc; simpl.
  - rewrite app_nil_r. reflexivity.
  - rewrite IH, <- app_assoc. reflexivity.
Qed.

(** X11: the overload of [addStrings] taking a vector hands the strings on
    complete and in order: it dispatches [Logic::addStatic] on a strings
    Source of that name holding exactly the given strings, as the overload
    taking a [StringArray] does, and does nothing else. *)
Theorem addStrings_vector_keeps_the_strings (name : string) (strings : list string) s :
  addStrings_vector name strings s = addStrings name strings s
  /\ events_of (addStrings_vector name strings s)
     = [ev_dispatch (bind_Logic_addStatic (SourceStrings_New name strings))]
  /\ state_of (addStrings_vector name strings s)
     = set_queue (m_queue s ++ [bind_Logic_addStatic (SourceStrings_New name strings)]) s.
Proof.
  unfold addStrings_vector. rewrite copy_loop. simpl. auto.
Qed.


Lemma init_keeps_running s :
  m_queue (state_of (init s)) = m_queue s
  /\ thread_shouldExit (state_of (init s)) = thread_shouldExit s
  /\ stoppable_stopped (state_of (init s)) = stoppable_stopped s.
Proof. crunch; auto. Qed.



Lemma stops_app es1 es2 : stops (es1 ++ es2) = (stops es1 + stops es2)%nat.
Proof. unfold stops. rewrite List.filter_app, length_app. reflexivity. Qed.

Lemma run_loop_stops fuel : forall s,
  match result_of (run_loop fuel s) with
  | run_returned =>
      stoppable_stopped (state_of (run_loop fuel s)) = true
      /\ thread_shouldExit (state_of (run_loop fuel s)) = true
      /\ exists pre, events_of (run_loop fuel s) = pre ++ [ev_stopped] /\ stops pre = 0%nat
  | _ =>
      stops (events_of (run_loop fuel s)) = 0%nat
      /\ stoppable_stopped (state_of (run_loop fuel s)) = stoppable_stopped s
  end.
Proof.
  induction fuel as [|fuel IH]; intros s.
  - rewrite run_loop_0. projections. cbv iota. auto.
  - destruct (thread_shouldExit s) eqn:Hexit.
    + rewrite (run_loop_leaves fuel s Hexit). projections. cbv iota.
      split; [reflexivity|]. split; [exact Hexit|]. exists []. auto.
    + rewrite (run_loop_pass fuel s Hexit).
      destruct (checkSources_effects s) as (_ & _ & _ & _ & Hd & _ & _ & _ & _ & Hs).
      destruct (m_queue s) as [|h rest]; projections; [cbv iota; auto|].
      cbv zeta. projections.
      set (s1 := set_queue rest (state_of (checkSources s))).
      destruct (invoke_effects h s1) as (_ & _ & _ & _ & _ & _ & Hd2 & _).
      specialize (IH (state_of (invoke h s1))).
      destruct (result_of (run_loop fuel (state_of (invoke h s1)))).
      * destruct IH as (IHd & IHx & pre & IHe & IHp).
        split; [exact IHd|]. split; [exact IHx|].
        exists (events_of (checkSources s) ++ ev_run_handler h :: pre).
        rewrite IHe, stops_app, Hs. split; [|exact IHp].
        rewrite <- app_assoc. reflexivity.
      * destruct IH as (IHs & IHd). rewrite stops_app, Hs, IHd, Hd2.
        split; [exact IHs|exact Hd].
      * destruct IH as (IHs & IHd). rewrite stops_app, Hs, IHd, Hd2.
        split; [exact IHs|exact Hd].
Qed.

(** X13: [run] calls [stopped] exactly when it returns: a run that returns
    has called it once, as its last action, with the exit flag up; a run
    still in its loop, or waiting for a handler, has not called it. *)
Theorem run_calls_stopped_exactly_on_return fuel s :
  match result_of (run fuel s) with
  | run_returned =>
      stoppable_stopped (state_of (run fuel s)) = true
      /\ thread_shouldExit (state_of (run fuel s)) = true
      /\ exists pre, events_of (run fuel s) = pre ++ [ev_stopped] /\ stops pre = 0%nat
  | _ =>
      stops (events_of (run fuel s)) = 0%nat
      /\ stoppable_stopped (state_of (run fuel s)) = stoppable_stopped s
  end.
Proof.
  assert (Hrun : run fuel s
                 = (result_of (run_loop fuel (state_of (init s))),
                    state_of (run_loop fuel (state_of (init s))),
                    events_of (init s) ++ events_of (run_loop fuel (state_of (init s))))).
  { unfold run. unfold mbind, M_bind, bind.
    destruct (init s) as [[u s1] es1]. projections.
    destruct (run_loop fuel s1) as [[r s2] es2]. reflexivity. }
  assert (Hinit : stops (events_of (init s)) = 0%nat) by (crunch; reflexivity).
  destruct (init_keeps_running s) as (_ & _ & Hd).
  pose proof (run_loop_stops fuel (state_of (init s))) as Hloop.
  rewrite Hrun. projections.
  destruct (result_of (run_loop fuel (state_of (init s)))).
  - destruct Hloop as (Hd' & Hx & pre & He & Hp).
    split; [exact Hd'|]. split; [exact Hx|].
    exists (events_of (init s) ++ pre). rewrite He, stops_app, Hinit, app_assoc. auto.
  - destruct Hloop as (Hs & Hd'). rewrite stops_app, Hinit, Hd', Hd. auto.
  - destruct Hloop as (Hs & Hd'). rewrite stops_app, Hinit, Hd', Hd. auto.
Qed.

Lemma step_rpc a sys sys' :
  perform a sys = Some sys' ->
  rpc_handlers (manager sys') = rpc_handlers (manager sys)
  \/ rpc_handlers (manager sys') = rpc_handlers (manager sys) ++ registration.
Proof.
  intros Hstep.
  destruct a as [e|journal|timer|]; simpl in Hstep.
  - inversion Hstep as [Heq]; clear Hstep Heq. simpl.
    destruct e; try (left; crunch; reflexivity).
    right. unfold registration. crunch. rewrite <- !app_assoc. reflexivity.
  - inversion Hstep as [Heq]; clear Hstep Heq. left. crunch; reflexivity.
  - destruct timer as [|n].
    + destruct (expiration (m_checkTimer (manager sys))); [|discriminate].
      inversion Hstep as [Heq]; clear Hstep Heq. left. unfold disarm. crunch; reflexivity.
    + inversion Hstep as [Heq]; clear Hstep Heq. left. crunch; reflexivity.
  - destruct (thread_at sys).
    + destruct (thread_running (manager sys)); [|discriminate].
      inversion Hstep as [Heq]; clear Hstep Heq. left. crunch; reflexivity.
    + destruct (thread_shouldExit (manager sys));
        inversion Hstep as [Heq]; clear Hstep Heq; left; crunch; reflexivity.
    + destruct (m_queue (manager sys)) as [|h rest] eqn:Hqueue; [discriminate|].
      inversion Hstep as [Heq]; clear Hstep Heq. left.
      unfold run_one. rewrite Hqueue. destruct h; crunch; reflexivity.
    + discriminate.
Qed.

Lemma concat_replicate_snoc {A} n (l : list A) :
  concat (replicate n l) ++ l = concat (replicate (S n) l).
Proof.
  induction n as [|n IH]; simpl; [rewrite app_nil_r; reflexivity|].
  rewrite <- app_assoc, IH. reflexivity.
Qed.

(** X14: the table of RPC handlers changes only through [onPrepare], by one
    whole registration: in every state the service reaches after
    construction the table is some number of copies of what
    [addRPCHandlers] registers, which are three handlers under three
    different names. *)
Theorem rpc_table_holds_whole_registrations (journal : Journal)
    (acts : list (@Action ReceivedValidation RippleLedgerHash)) sys :
  perform_all acts (boot journal) = Some sys ->
  (exists n, rpc_handlers (manager sys) = concat (replicate n registration))
  /\ length registration = 3%nat
  /\ NoDup (map fst registration).
Proof.
  intros Hrun. split; [|split; [reflexivity|]].
  - apply (perform_all_invariant
             (fun sys => exists n, rpc_handlers (manager sys) = concat (replicate n registration)))
      with (acts := acts) (sys := boot journal); [|exact Hrun|exists 0%nat; reflexivity].
    clear. intros a sys sys' Hstep [n Hn].
    destruct (step_rpc a sys sys' Hstep) as [H|H].
    + exists n. congruence.
    + exists (S n). rewrite H, Hn. clear.
      apply concat_replicate_snoc.
  - unfold registration. simpl.
    repeat (apply NoDup_cons; split; [set_solver|]). apply NoDup_nil_2.
Qed.

(** ** The start-up pass *)





End ManagerProperties.

(** * Properties of reconciliation and Chosen-set construction *)

Section LogicProperties.

Import LogicModel.

Section ChoosingProperties.
Variable weight : ValidatorRecord -> N.
Variable prng : N -> N * N.

Lemma pick_Some r pool :
  pool <> [] -> exists c rest, pick weight r pool = Some (c, rest).
Proof.
  revert r. induction pool as [|c pool IH]; intros r Hne; [contradiction|].
  simpl. destruct (r <? weight c.2)%N; [eauto|].
  destruct (pick weight (r - weight c.2) pool) as [[c' rest']|]; eauto.
Qed.

Lemma pick_Permutation r pool c rest :
  pick weight r pool = Some (c, rest) -> pool ≡ₚ c :: rest.
Proof.
  revert r c rest. induction pool as [|x pool IH]; intros r c rest; simpl; [discriminate|].
  destruct (r <? weight x.2)%N.
  - intros [= <- <-]. reflexivity.
  - destruct (pick weight (r - weight x.2) pool) as [[c' rest']|] eqn:Hp.
    + intros [= <- <-]. rewrite (IH _ _ _ Hp). apply Permutation_swap.
    + intros [= <- <-]. reflexivity.
Qed.

Lemma sample_length k : forall s pool,
  length (sample weight prng k s pool) = Nat.min k (length pool).
Proof.
  induction k as [|k IH]; intros s pool; simpl; [reflexivity|].
  destruct (prng s) as [r s'].
  destruct pool as [|x pool].
  - reflexivity.
  - destruct (pick_Some (r mod total_weight weight (x :: pool)) (x :: pool)) as (c & rest & Hp);
      [discriminate|].
    rewrite Hp. simpl. rewrite IH.
    apply pick_Permutation, Permutation_length in Hp. simpl in Hp.
    injection Hp as ->. reflexivity.
Qed.

Lemma sample_submseteq k : forall s pool, sample weight prng k s pool ⊆+ pool.
Proof.
  induction k as [|k IH]; intros s pool; simpl; [apply submseteq_nil_l|].
  destruct (prng s) as [r s'].
  destruct (pick weight _ pool) as [[c rest]|] eqn:Hp; [|apply submseteq_nil_l].
  rewrite (pick_Permutation _ _ _ _ Hp). apply submseteq_skip, IH.
Qed.

Lemma NoDup_of_submseteq {A} (k l : list A) : k ⊆+ l -> NoDup l -> NoDup k.
Proof.
  intros Hsub Hnd. apply submseteq_Permutation in Hsub as [rest Hperm].
  rewrite Hperm in Hnd. apply NoDup_app in Hnd as [Hk _]. exact Hk.
Qed.

Lemma elem_of_trusted_population t id r :
  (id, r) ∈ trusted_population t <-> t !! id = Some r /\ trusted r = true.
Proof.
  unfold trusted_population. rewrite elem_of_map_to_list, map_lookup_filter_Some. reflexivity.
Qed.

Lemma NoDup_trusted_population t : NoDup (trusted_population t).*1.
Proof. apply NoDup_fst_map_to_list. Qed.

Lemma choose_spec T s t :
  let c := choose weight prng T s t in
  let P := length (trusted_population t) in
  length c = Nat.min P T
  /\ c ⊆+ (trusted_population t).*1
  /\ (P <= T -> c = (trusted_population t).*1)%nat.
Proof.
  unfold choose. simpl. destruct (decide _) as [Hle|Hgt].
  - rewrite length_fmap. unfold Candidate in *. repeat split; auto. lia.
  - rewrite length_fmap, sample_length. unfold Candidate in *. repeat split; try lia.
    apply fmap_submseteq, sample_submseteq.
Qed.

(** C6: [buildChosen] leaves a Chosen set of min (P, T) entries for a
    trusted population of size P and a target T; every entry is a validator
    of the table with the trust flag up, none occurs twice, and when P is at
    most T the Chosen set is the trusted population. *)
Theorem buildChosen_size_trust_nodup (st : State) :
  let c := chosen (buildChosen weight prng st) in
  let population := filter (λ kv, trusted kv.2 = true) (table st) in
  let P := size population in
  length c = Nat.min P (target st)
  /\ (forall id, id ∈ c -> exists r, table st !! id = Some r /\ trusted r = true)
  /\ NoDup c
  /\ ((P <= target st)%nat -> list_to_set c = dom population).
Proof.
  simpl.
  destruct (choose_spec (target st) (seed st) (table st)) as (Hlen & Hsub & Hall).
  unfold trusted_population, Candidate in *. rewrite length_map_to_list in Hlen, Hall.
  split; [exact Hlen|].
  split.
  { intros id Hin. apply (elem_of_submseteq _ _ _ Hin) in Hsub.
    apply list_elem_of_fmap in Hsub as ([id' r] & -> & Hr).
    apply elem_of_map_to_list, map_lookup_filter_Some in Hr as [Hr Ht]. eauto. }
  split.
  { eapply NoDup_of_submseteq; [exact Hsub|]. apply NoDup_fst_map_to_list. }
  intros Hle. rewrite (Hall Hle).
  apply set_eq. intros id.
  rewrite elem_of_list_to_set, elem_of_dom, list_elem_of_fmap. split.
  - intros ([id' r] & -> & Hr). apply elem_of_map_to_list in Hr. eauto.
  - intros [r Hr]. exists (id, r). split; [reflexivity|]. apply elem_of_map_to_list, Hr.
Qed.

End ChoosingProperties.

Lemma enrol_insert src id t :
  enrol src id t
  = <[ id := match t !! id with
             | Some r => {| origins := {[ src ]} ∪ origins r;
                            participated := participated r;
                            rounds_observed := rounds_observed r;
                            wasted := wasted r;
                            trusted := true |}
             | None => fresh_record src
             end ]> t.
Proof. unfold enrol. destruct (t !! id); reflexivity. Qed.

Lemma lookup_foldr_enrol_notin src l t id :
  id ∉ l -> foldr (enrol src) t l !! id = t !! id.
Proof.
  induction l as [|a l IH]; simpl; intros Hnotin; [reflexivity|].
  apply not_elem_of_cons in Hnotin as [Hne Hnotin].
  rewrite enrol_insert, lookup_insert_ne by congruence. apply IH, Hnotin.
Qed.

Lemma lookup_foldr_enrol_in src l t id :
  NoDup l -> id ∈ l ->
  foldr (enrol src) t l !! id
  = Some match t !! id with
         | Some r => {| origins := {[ src ]} ∪ origins r;
                        participated := participated r;
                        rounds_observed := rounds_observed r;
                        wasted := wasted r;
                        trusted := true |}
         | None => fresh_record src
         end.
Proof.
  induction l as [|a l IH]; simpl; intros Hnd Hin.
  - apply elem_of_nil in Hin as [].
  - apply NoDup_cons in Hnd as [Ha Hnd].
    rewrite enrol_insert. destruct (decide (a = id)) as [->|Hne].
    + rewrite lookup_insert_eq, lookup_foldr_enrol_notin by exact Ha. reflexivity.
    + rewrite lookup_insert_ne by exact Hne. apply IH; [exact Hnd|].
      apply elem_of_cons in Hin as [->|Hin]; [contradiction|exact Hin].
Qed.

Lemma lookup_foldr_withdraw_notin src l t id :
  id ∉ l -> foldr (withdraw src) t l !! id = t !! id.
Proof.
  induction l as [|a l IH]; simpl; intros Hnotin; [reflexivity|].
  apply not_elem_of_cons in Hnotin as [Hne Hnotin].
  unfold withdraw at 1. rewrite lookup_alter_ne by congruence. apply IH, Hnotin.
Qed.

Lemma lookup_foldr_withdraw_in src l t id :
  NoDup l -> id ∈ l ->
  foldr (withdraw src) t l !! id = drop_origin src <$> t !! id.
Proof.
  induction l as [|a l IH]; simpl; intros Hnd Hin.
  - apply elem_of_nil in Hin as [].
  - apply NoDup_cons in Hnd as [Ha Hnd]. unfold withdraw at 1.
    destruct (decide (a = id)) as [->|Hne].
    + rewrite lookup_alter_eq, lookup_foldr_withdraw_notin by exact Ha. reflexivity.
    + rewrite lookup_alter_ne by exact Hne. apply IH; [exact Hnd|].
      apply elem_of_cons in Hin as [->|Hin]; [contradiction|exact Hin].
Qed.

Lemma diff_sets (old new : gset Identity) :
  unchanged (diff old new) = old ∩ new
  /\ appeared (diff old new) = new ∖ old
  /\ removed (diff old new) = old ∖ new.
Proof.
  unfold diff; simpl. repeat split; set_solver.
Qed.

Lemma diff_disjoint (old new : gset Identity) :
  unchanged (diff old new) ## appeared (diff old new)
  /\ unchanged (diff old new) ## removed (diff old new)
  /\ appeared (diff old new) ## removed (diff old new).
Proof.
  destruct (diff_sets old new) as (-> & -> & ->). repeat split; set_solver.
Qed.

Lemma fetchOne_pulled pull store st src members :
  rotation st !! cursor st = Some src ->
  pull (origin src) = pulled members ->
  let d := diff (snapshot src) members in
  let t := reconcile (source_id (origin src)) d (table st) in
  let remaining := (length (rotation st) - S (cursor st))%nat in
  fetchOne pull store st
  = (N.of_nat remaining,
     (persist (origin src) members (elements (appeared d) ++ elements (removed d)) t store,
      with_rotation
        (<[ cursor st := mkSourceState (origin src) members fetch_succeeded false ]>
           (rotation st))
        (if decide (remaining = 0%nat) then 0%nat else S (cursor st)) t st)).
Proof. intros Hsrc Hpull. unfold fetchOne. rewrite Hsrc, Hpull. reflexivity. Qed.

(** C7: a successful pull of the Source under the cursor splits old and new
    membership into the disjoint sets unchanged = old ∩ new, new = new ∖ old
    and removed = old ∖ new; every new identity then has a record, created
    or reactivated, that is trusted and lists the Source among its origins;
    every removed identity loses the Source as an origin and becomes
    untrusted when no origin is left, its counters kept; other records are
    untouched and the Source's snapshot is the new membership. *)
Theorem reconciliation_applies_diff pull store st src members :
  rotation st !! cursor st = Some src ->
  pull (origin src) = pulled members ->
  let old := snapshot src in
  let me := source_id (origin src) in
  let d := diff old members in
  let st' := snd (snd (fetchOne pull store st)) in
  (unchanged d = old ∩ members /\ appeared d = members ∖ old /\ removed d = old ∖ members)
  /\ (unchanged d ## appeared d /\ unchanged d ## removed d /\ appeared d ## removed d)
  /\ (forall id, id ∈ appeared d ->
        exists r, table st' !! id = Some r
          /\ me ∈ origins r /\ trusted r = true
          /\ match table st !! id with
             | Some r0 =>
                 origins r = ({[ me ]} ∪ origins r0)
                 /\ participated r = participated r0
                 /\ rounds_observed r = rounds_observed r0
                 /\ wasted r = wasted r0
             | None => r = fresh_record me
             end)
  /\ (forall id r0, id ∈ removed d -> table st !! id = Some r0 ->
        exists r, table st' !! id = Some r
          /\ origins r = origins r0 ∖ {[ me ]}
          /\ (me ∉ origins r)
          /\ trusted r = (if decide (origins r = ∅) then false else trusted r0)
          /\ participated r = participated r0
          /\ rounds_observed r = rounds_observed r0
          /\ wasted r = wasted r0)
  /\ (forall id, id ∈ removed d -> table st !! id = None -> table st' !! id = None)
  /\ (forall id, id ∉ appeared d -> id ∉ removed d -> table st' !! id = table st !! id)
  /\ (exists src', rotation st' !! cursor st = Some src'
        /\ origin src' = origin src /\ snapshot src' = members).
Proof.
  intros Hsrc Hpull. simpl.
  rewrite (fetchOne_pulled pull store st src members Hsrc Hpull). simpl.
  destruct (diff_disjoint (snapshot src) members) as (Hua & Hur & Har).
  split; [apply diff_sets|].
  split; [auto|].
  unfold reconcile.
  set (d := diff (snapshot src) members) in *.
  set (me := source_id (origin src)).
  assert (Hnda : NoDup (elements (appeared d))) by apply NoDup_elements.
  assert (Hndr : NoDup (elements (removed d))) by apply NoDup_elements.
  split; [|split; [|split; [|split]]].
  - intros id Hin.
    assert (Hnot : id ∉ elements (removed d)) by (rewrite elem_of_elements; set_solver).
    rewrite lookup_foldr_withdraw_notin by exact Hnot.
    rewrite lookup_foldr_enrol_in by (auto; rewrite elem_of_elements; exact Hin).
    eexists. split; [reflexivity|].
    destruct (table st !! id) as [r0|]; simpl; repeat split; auto; set_solver.
  - intros id r0 Hin Hr0.
    assert (Hnot : id ∉ elements (appeared d)) by (rewrite elem_of_elements; set_solver).
    rewrite lookup_foldr_withdraw_in by (auto; rewrite elem_of_elements; exact Hin).
    rewrite lookup_foldr_enrol_notin by exact Hnot.
    rewrite Hr0. simpl. eexists. split; [reflexivity|].
    simpl. repeat split; auto. set_solver.
  - intros id Hin Hnone.
    assert (Hnot : id ∉ elements (appeared d)) by (rewrite elem_of_elements; set_solver).
    rewrite lookup_foldr_withdraw_in by (auto; rewrite elem_of_elements; exact Hin).
    rewrite lookup_foldr_enrol_notin by exact Hnot.
    rewrite Hnone. reflexivity.
  - intros id Hna Hnr.
    rewrite lookup_foldr_withdraw_notin by (rewrite elem_of_elements; exact Hnr).
    apply lookup_foldr_enrol_notin. rewrite elem_of_elements. exact Hna.
  - eexists. split.
    + apply list_lookup_insert_eq. eapply lookup_lt_Some, Hsrc.
    + split; reflexivity.
Qed.

(** C8: a failed pull of the Source under the cursor, transient or
    malformed, leaves the table, the store and every Source's snapshot as
    they were, records the failure as the Source's last outcome, moves the
    cursor past it (wrapping after the last Source) and returns the number
    of Sources still to visit. *)
Theorem failed_pull_keeps_state pull store st src e :
  rotation st !! cursor st = Some src ->
  pull (origin src) = pull_failed e ->
  let r := fetchOne pull store st in
  let st' := snd (snd r) in
  table st' = table st
  /\ fst (snd r) = store
  /\ snapshot <$> rotation st' = snapshot <$> rotation st
  /\ origin <$> rotation st' = origin <$> rotation st
  /\ static_sources st' = static_sources st
  /\ (exists src', rotation st' !! cursor st = Some src'
        /\ snapshot src' = snapshot src /\ last_outcome src' = fetch_failed e)
  /\ cursor st' = (if decide (S (cursor st) = length (rotation st)) then 0 else S (cursor st))%nat
  /\ fst r = N.of_nat (length (rotation st) - S (cursor st)).
Proof.
  intros Hsrc Hpull. simpl. unfold fetchOne. rewrite Hsrc, Hpull. simpl.
  pose proof (lookup_lt_Some _ _ _ Hsrc) as Hlt.
  split; [reflexivity|]. split; [reflexivity|].
  split.
  { rewrite list_fmap_insert. simpl. apply list_insert_id.
    rewrite list_lookup_fmap, Hsrc. reflexivity. }
  split.
  { rewrite list_fmap_insert. simpl. apply list_insert_id.
    rewrite list_lookup_fmap, Hsrc. reflexivity. }
  split; [reflexivity|].
  split.
  { eexists. split; [apply list_lookup_insert_eq, Hlt|]. split; reflexivity. }
  split; [|reflexivity].
  repeat case_decide; lia.
Qed.

End LogicProperties.

(** * The properties on the deployment *)

Local Abbreviation seeded := (Deployment.engine Deployment.disk_seeded).
Local Abbreviation empty := (Deployment.engine Deployment.disk_empty).
Local Abbreviation down := (Deployment.engine Deployment.disk_down).

(** Witness of C1: after [init] on the seeded database the flag is up and
    [fetch_one] returns 1; the flag stays up and the timer untouched. *)
Lemma checkSources_settles_witness :
  m_checkSources (Deployment.loaded Deployment.disk_seeded) = true
  /\ fetch_result (C := seeded) (Deployment.loaded Deployment.disk_seeded) = 1%N
  /\ events_of (checkSources (C := seeded) (Deployment.loaded Deployment.disk_seeded))
     = [ev_Logic_fetch_one 1]
  /\ m_checkTimer
       (state_of (checkSources (C := seeded) (Deployment.loaded Deployment.disk_seeded)))
     = m_checkTimer (Deployment.loaded Deployment.disk_seeded).
Proof.
  assert (Hflag : m_checkSources (Deployment.loaded Deployment.disk_seeded) = true)
    by (vm_compute; reflexivity).
  assert (Hn : fetch_result (C := seeded) (Deployment.loaded Deployment.disk_seeded) = 1%N)
    by (vm_compute; reflexivity).
  destruct (checkSources_settles_exactly_on_zero (C := seeded)) as [Hcall _].
  destruct (Hcall _ Hflag) as (_ & _ & _ & _ & Hmore).
  rewrite Hn in Hmore. destruct Hmore as [Htimer Hev]; [discriminate|].
  exact (conj Hflag (conj Hn (conj Hev Htimer))).
Defined.

(** Counterexample to C2: [rpcPrint] dispatches nothing and calls
    [Logic::rpcPrint] on the caller's thread. *)
Lemma rpcPrint_runs_on_the_caller :
  events_of (rpcPrint (C := empty) Json.nullValue (Deployment.started Deployment.disk_empty))
  = [ev_Logic_rpcPrint Json.nullValue]
  /\ m_queue
       (state_of (rpcPrint (C := empty) Json.nullValue
                    (Deployment.started Deployment.disk_empty)))
     = m_queue (Deployment.started Deployment.disk_empty)
  /\ ~ enqueues_only (rpcPrint (C := empty) Json.nullValue)
         (Deployment.started Deployment.disk_empty).
Proof.
  split; [vm_compute; reflexivity|]. split; [vm_compute; reflexivity|].
  intros (h & Hev & _). vm_compute in Hev. discriminate Hev.
Qed.

(** Counterexample to C3: the database cannot be opened, and the first pass
    of the loop still runs [checkSources] and the queued handler. *)
Lemma failed_open_does_not_stop_the_loop :
  events_of (run (C := down) 1 (Deployment.started Deployment.disk_down))
  = [ ev_store_open "/var/lib/rippled/validators.sqlite" true;
      ev_Logic_fetch_one 0;
      ev_setExpiration 300;
      ev_run_handler (bind_Logic_add (SourceURL_New "gamma")) ]
  /\ m_queue (Deployment.started Deployment.disk_down)
     = [bind_Logic_add (SourceURL_New "gamma")]
  /\ m_queue (state_of (run (C := down) 1 (Deployment.started Deployment.disk_down))) = [].
Proof.
  split; [vm_compute; reflexivity|]. split; vm_compute; reflexivity.
Qed.

(** Witness of C3, amended, on the database that cannot be opened. *)
Lemma failed_open_witness :
  In (ev_store_open (db_file (C := down)) true)
     (events_of (init (C := down) (Deployment.started Deployment.disk_down)))
  /\ last (m_journal (state_of (init (C := down) (Deployment.started Deployment.disk_down))))
     = Some (kFatal, "Failed to open '/var/lib/rippled/validators.sqlite'")
  /\ exists es,
       events_of (run (C := down) 1 (Deployment.started Deployment.disk_down))
       = ev_store_open (db_file (C := down)) true
         :: events_of (checkSources (C := down)
                         (state_of (init (C := down) (Deployment.started Deployment.disk_down))))
         ++ ev_run_handler (bind_Logic_add (SourceURL_New "gamma")) :: es.
Proof.
  assert (Hfail : In (ev_store_open (db_file (C := down)) true)
                    (events_of (init (C := down) (Deployment.started Deployment.disk_down))))
    by (left; vm_compute; reflexivity).
  destruct (failed_open_is_logged_and_run_goes_on (C := down) _ Hfail)
    as (Hlast & _ & _ & _ & _ & _ & _ & Hloop).
  split; [exact Hfail|]. split; [exact Hlast|].
  apply (Hloop 0%nat _ []); vm_compute; reflexivity.
Defined.

(** Witness of C4: the step that clears the flag is the thread's
    [checkSources] with [fetch_one] returning 0. *)
Lemma check_flag_witness :
  m_checkSources (manager Deployment.at_loop_test) = true
  /\ (forall sys', perform (C := empty) act_thread Deployment.at_loop_test = Some sys' ->
      m_checkSources (manager sys') = false ->
      history sys' = [ev_Logic_fetch_one 0; ev_setExpiration 300]).
Proof.
  split; [vm_compute; reflexivity|].
  intros sys' Hstep Hclear.
  destruct (check_flag_survives_operations (C := empty))
    as (_ & _ & _ & _ & _ & _ & _ & _ & _ & Hpass).
  destruct (Hpass act_thread Deployment.at_loop_test sys' Hstep) as (_ & _ & Hhist);
    [vm_compute; reflexivity | exact Hclear | exact Hhist].
Defined.




(** Witness of C6: three trusted validators, targets 2 and 5. *)
Lemma buildChosen_witness :
  length (LogicModel.chosen
            (LogicModel.buildChosen Deployment.weight Deployment.prng (Deployment.state4 2 0)))
  = 2%nat
  /\ (list_to_set (LogicModel.chosen
        (LogicModel.buildChosen Deployment.weight Deployment.prng (Deployment.state4 5 0)))
      : gset LogicModel.Identity)
     = {[ "A"; "B"; "C" ]}.
Proof.
  split.
  - destruct (buildChosen_size_trust_nodup Deployment.weight Deployment.prng
                (Deployment.state4 2 0)) as (Hlen & _).
    rewrite Hlen. vm_compute. reflexivity.
  - destruct (buildChosen_size_trust_nodup Deployment.weight Deployment.prng
                (Deployment.state4 5 0)) as (_ & _ & _ & Hall).
    rewrite Hall; [|vm_compute; lia].
    apply (bool_decide_unpack _). vm_compute. exact I.
Defined.

(** Witness of C7: Source alpha listed A, B, C and now returns B, C, D. *)
Lemma reconciliation_witness :
  LogicModel.rotation (Deployment.state4 2 0) !! LogicModel.cursor (Deployment.state4 2 0)
  = Some (LogicModel.mkSourceState (SourceURL_New "alpha") {[ "A"; "B"; "C" ]}
            LogicModel.fetch_succeeded false)
  /\ Deployment.pull (SourceURL_New "alpha") = LogicModel.pulled {[ "B"; "C"; "D" ]}
  /\ LogicModel.appeared (LogicModel.diff {[ "A"; "B"; "C" ]} {[ "B"; "C"; "D" ]})
     = {[ "B"; "C"; "D" ]} ∖ {[ "A"; "B"; "C" ]}
  /\ (exists r,
        LogicModel.table
          (snd (snd (LogicModel.fetchOne Deployment.pull Deployment.disk_empty
                       (Deployment.state4 2 0)))) !! "A" = Some r
        /\ ("alpha" ∉ LogicModel.origins r)
        /\ LogicModel.participated r = 9%N).
Proof.
  assert (Hsrc :
    LogicModel.rotation (Deployment.state4 2 0) !! LogicModel.cursor (Deployment.state4 2 0)
    = Some (LogicModel.mkSourceState (SourceURL_New "alpha") {[ "A"; "B"; "C" ]}
              LogicModel.fetch_succeeded false)) by reflexivity.
  assert (Hpull : Deployment.pull (SourceURL_New "alpha") = LogicModel.pulled {[ "B"; "C"; "D" ]})
    by reflexivity.
  destruct (reconciliation_applies_diff Deployment.pull Deployment.disk_empty
              (Deployment.state4 2 0) _ _ Hsrc Hpull)
    as ((_ & Happ & Hrem) & _ & _ & Hremoved & _ & _).
  split; [exact Hsrc|]. split; [exact Hpull|]. split; [exact Happ|].
  destruct (Hremoved "A" (LogicModel.mkValidatorRecord {[ "alpha" ]} 9 10 0 true))
    as (r & Hr & _ & Hnot & _ & Hpart & _).
  - simpl in *. rewrite Hrem. apply (bool_decide_unpack _). vm_compute. exact I.
  - vm_compute. reflexivity.
  - exists r. exact (conj Hr (conj Hnot Hpart)).
Defined.

(** Two calls of fetch-one over the two Sources count down 1, 0 and return
    the cursor to the first Source. *)
Example rotation_counts_down :
  let first := LogicModel.fetchOne Deployment.pull Deployment.disk_empty
                 (Deployment.state4 2 0) in
  let second := LogicModel.fetchOne Deployment.pull (fst (snd first)) (snd (snd first)) in
  (fst first, fst second, LogicModel.cursor (snd (snd second))) = (1%N, 0%N, 0%nat).
Proof. vm_compute. reflexivity. Qed.

(** Witness of C8: Source beta is unreachable. *)
Lemma failed_pull_witness :
  LogicModel.rotation (Deployment.state4 2 1) !! LogicModel.cursor (Deployment.state4 2 1)
  = Some (LogicModel.mkSourceState (SourceURL_New "beta") {[ "B" ]}
            LogicModel.fetch_succeeded false)
  /\ Deployment.pull (SourceURL_New "beta")
     = LogicModel.pull_failed LogicModel.transient_unavailable
  /\ LogicModel.table
       (snd (snd (LogicModel.fetchOne Deployment.pull Deployment.disk_empty
                    (Deployment.state4 2 1))))
     = Deployment.table4
  /\ LogicModel.cursor
       (snd (snd (LogicModel.fetchOne Deployment.pull Deployment.disk_empty
                    (Deployment.state4 2 1))))
     = 0%nat.
Proof.
  assert (Hsrc :
    LogicModel.rotation (Deployment.state4 2 1) !! LogicModel.cursor (Deployment.state4 2 1)
    = Some (LogicModel.mkSourceState (SourceURL_New "beta") {[ "B" ]}
              LogicModel.fetch_succeeded false)) by reflexivity.
  assert (Hpull : Deployment.pull (SourceURL_New "beta")
                  = LogicModel.pull_failed LogicModel.transient_unavailable) by reflexivity.
  destruct (failed_pull_keeps_state Deployment.pull Deployment.disk_empty
              (Deployment.state4 2 1) _ _ Hsrc Hpull)
    as (Htable & _ & _ & _ & _ & _ & Hcursor & _).
  split; [exact Hsrc|]. split; [exact Hpull|]. split; [exact Htable|].
  rewrite Hcursor. reflexivity.
Defined.


(** Witness of X2: stop is requested of the running service with one handler
    queued; the loop invokes the handler and the exit signal and returns. *)
Lemma onStop_witness :
  thread_running (Deployment.loaded Deployment.disk_seeded) = true
  /\ result_of (run_loop (C := seeded) 3
                  (state_of (onStop [] (Deployment.loaded Deployment.disk_seeded))))
     = run_returned
  /\ handlers_run
       (events_of (run_loop (C := seeded) 3
                     (state_of (onStop [] (Deployment.loaded Deployment.disk_seeded)))))
     = [bind_Logic_add (SourceURL_New "gamma"); bind_Thread_signalThreadShouldExit].
Proof.
  assert (Hrun : thread_running (Deployment.loaded Deployment.disk_seeded) = true)
    by (vm_compute; reflexivity).
  assert (Hq : m_queue (Deployment.loaded Deployment.disk_seeded)
               = [bind_Logic_add (SourceURL_New "gamma")]) by (vm_compute; reflexivity).
  pose proof (onStop_then_run_returns (C := seeded) []
                (Deployment.loaded Deployment.disk_seeded) 3) as H.
  cbv zeta in H. rewrite Hrun, Hq in H.
  destruct H as (_ & Hr & Hh & _);
    [vm_compute; reflexivity | reflexivity | simpl; lia |].
  exact (conj Hrun (conj Hr Hh)).
Defined.

(** Witness of X3: the rebuild requested after the stop request stays in the
    queue when the loop has returned. *)
Lemma rebuild_after_stop_witness :
  m_queue
    (state_of
       (run_loop (C := seeded) 3
          (state_of
             (rpcRebuild Json.nullValue
                (state_of (Stoppable_stop [] (Deployment.loaded Deployment.disk_seeded)))))))
  = [bind_Logic_buildChosen].
Proof.
  assert (Hq : m_queue (Deployment.loaded Deployment.disk_seeded)
               = [bind_Logic_add (SourceURL_New "gamma")]) by (vm_compute; reflexivity).
  pose proof (rebuild_after_stop_is_never_run (C := seeded) [] Json.nullValue
                (Deployment.loaded Deployment.disk_seeded) 3) as H.
  cbv zeta in H. rewrite Hq in H.
  destruct H as (_ & _ & _ & _ & Hleft);
    [vm_compute; reflexivity | vm_compute; reflexivity | reflexivity | simpl; lia |].
  exact Hleft.
Defined.

(** Witness of X4: after the first completed check the loop makes five more
    passes without a call of [fetch_one]. *)
Lemma idle_loop_witness :
  m_checkSources Deployment.settled = false
  /\ m_queue Deployment.settled = [bind_Logic_add (SourceURL_New "alpha")]
  /\ pulls (events_of (run_loop (C := empty) 5 Deployment.settled)) = 0%nat.
Proof.
  assert (Hflag : m_checkSources Deployment.settled = false) by (vm_compute; reflexivity).
  assert (Hq : m_queue Deployment.settled = [bind_Logic_add (SourceURL_New "alpha")])
    by (vm_compute; reflexivity).
  destruct (idle_loop_never_fetches (C := empty) 5 Deployment.settled Hflag) as [Hp _].
  - rewrite Hq. reflexivity.
  - exact (conj Hflag (conj Hq Hp)).
Defined.

(** Witness of X5: the check timer expires with one handler queued; two
    passes later the flag is up, and the third pass calls [fetch_one]. *)
Lemma timer_signal_witness :
  timer_ref (m_checkTimer Deployment.settled) = the_checkTimer
  /\ pulls (events_of
              (run_loop (C := empty) 2
                 (state_of (onDeadlineTimer the_checkTimer Deployment.settled))))
     = 0%nat
  /\ pulls (events_of
              (run_loop (C := empty) 1
                 (state_of
                    (run_loop (C := empty) 2
                       (state_of (onDeadlineTimer the_checkTimer Deployment.settled))))))
     = 1%nat.
Proof.
  assert (Href : timer_ref (m_checkTimer Deployment.settled) = the_checkTimer)
    by (vm_compute; reflexivity).
  assert (Hq : m_queue Deployment.settled = [bind_Logic_add (SourceURL_New "alpha")])
    by (vm_compute; reflexivity).
  destruct (timer_signal_takes_effect_at_its_turn (C := empty) Deployment.settled)
    as [_ H];
    [vm_compute; reflexivity | vm_compute; reflexivity
    | rewrite Hq; reflexivity | rewrite Hq; reflexivity |].
  cbv zeta in H. rewrite Href, Hq in H. simpl length in H.
  destruct H as (_ & _ & H0 & _ & _ & H1).
  exact (conj Href (conj H0 H1)).
Defined.


(** Witness of X7: the state at the end of the day. *)
Lemma timer_interval_witness :
  perform_all (C := empty) Deployment.a_day (boot (C := empty) [])
  = Some Deployment.after_a_day
  /\ interval_kept (C := empty) (manager Deployment.after_a_day).
Proof.
  assert (Hrun : perform_all (C := empty) Deployment.a_day (boot (C := empty) [])
                 = Some Deployment.after_a_day) by (vm_compute; reflexivity).
  exact (conj Hrun (timer_keeps_the_interval (C := empty) [] _ _ Hrun)).
Defined.

(** Witness of X8: the state at the end of the day. *)
Lemma next_check_witness :
  perform_all (C := empty) Deployment.a_day (boot (C := empty) [])
  = Some Deployment.after_a_day
  /\ check_pending (manager Deployment.after_a_day).
Proof.
  assert (Hrun : perform_all (C := empty) Deployment.a_day (boot (C := empty) [])
                 = Some Deployment.after_a_day) by (vm_compute; reflexivity).
  exact (conj Hrun (next_check_is_always_pending (C := empty) [] _ _ Hrun)).
Defined.

(** Witness of X9: a validation and a ledger close arrive after the stop
    request. *)
Lemma no_ingress_witness :
  perform_all (C := seeded) (act_stop [] :: Deployment.late_calls)
    Deployment.after_first_steps
  = Some Deployment.after_late_calls
  /\ stoppable_stopping (manager Deployment.after_late_calls) = true
  /\ exists new,
       history Deployment.after_late_calls = history Deployment.after_first_steps ++ new
       /\ existsb dispatches_ingress new = false.
Proof.
  assert (Hrun : perform_all (C := seeded) (act_stop [] :: Deployment.late_calls)
                   Deployment.after_first_steps
                 = Some Deployment.after_late_calls) by (vm_compute; reflexivity).
  exact (conj Hrun (no_ingress_after_stop (C := seeded) [] _ _ _ Hrun)).
Defined.


(** Witness of X14: the service was prepared once in the day. *)
Lemma rpc_table_witness :
  perform_all (C := empty) Deployment.a_day (boot (C := empty) [])
  = Some Deployment.after_a_day
  /\ rpc_handlers (manager Deployment.after_a_day)
     = [ ("validators_print", bind_ManagerImp_rpcPrint);
         ("validators_rebuild", bind_ManagerImp_rpcRebuild);
         ("validators_sources", bind_ManagerImp_rpcSources) ]
  /\ exists n,
       rpc_handlers (manager Deployment.after_a_day)
       = concat (replicate n (registration (C := empty))).
Proof.
  assert (Hrun : perform_all (C := empty) Deployment.a_day (boot (C := empty) [])
                 = Some Deployment.after_a_day) by (vm_compute; reflexivity).
  assert (Htable : rpc_handlers (manager Deployment.after_a_day)
                   = [ ("validators_print", bind_ManagerImp_rpcPrint);
                       ("validators_rebuild", bind_ManagerImp_rpcRebuild);
                       ("validators_sources", bind_ManagerImp_rpcSources) ])
    by (vm_compute; reflexivity).
  destruct (rpc_table_holds_whole_registrations (C := empty) [] _ _ Hrun) as [Hn _].
  exact (conj Hrun (conj Htable Hn)).
Defined.
